(** * node-crawler, package p2p: the probe protocol engine and the crawler's
      aggregation loop

    Shallow embedding of [pkg/p2p/protocol.go] and [pkg/p2p/p2p.go].

    - A peer session is a record; the message stream behind its [rw] handle
      is the list of the results that the successive calls of
      [p.rw.ReadMsg()] return, and is passed along with the session.
    - Functions that return a Go [error] return [option error] next to the
      updated state ([None] is Go's [nil]).
    - Logging ([p.Log()], [fmt.Printf]) has no effect on the state and is left
      out.
    - Go maps are reference values: the crawler part keeps them in a store
      indexed by locations. *)

From Stdlib Require Import ZArith Ascii String DecimalString Lia.
From Stdlib.Strings Require Import Byte.
From stdpp Require Import gmap strings list fin_maps.

Open Scope Z_scope.

(** ** External vocabulary: go-opera's gossip package and go-ethereum's p2p *)

(** Message codes of the gossip protocol ([msg.Code] is a [uint64]). *)
Definition HandshakeMsg : Z := 0.
Definition ProgressMsg : Z := 1.
Definition EvmTxsMsg : Z := 2.
Definition NewEvmTxHashesMsg : Z := 3.
Definition GetEvmTxsMsg : Z := 4.
Definition NewEventIDsMsg : Z := 5.
Definition GetEventsMsg : Z := 6.
Definition EventsMsg : Z := 7.
Definition RequestEventsStream : Z := 8.
Definition EventsStreamResponse : Z := 9.
Definition RequestBVsStream : Z := 10.
Definition BVsStreamResponse : Z := 11.
Definition RequestBRsStream : Z := 12.
Definition BRsStreamResponse : Z := 13.
Definition RequestEPsStream : Z := 14.
Definition EPsStreamResponse : Z := 15.

(** Error codes carried by [errResp]. *)
Inductive errCode :=
| ErrMsgTooLarge
| ErrDecode
| ErrInvalidMsgCode
| ErrProtocolVersionMismatch
| ErrNetworkIDMismatch
| ErrGenesisMismatch
| ErrNoStatusMsg
| ErrExtraStatusMsg
| ErrSuspendedPeer
| ErrEmptyMessage.

(** [p2p.DiscReason] values used by this package. *)
Inductive DiscReason :=
| DiscQuitting
| DiscUselessPeer
| DiscReadTimeout.

(** Go [error] values. The formatted text of [errResp] is not kept, only its
    code; [errorsNew] is [errors.New]; [errTransport] stands for whatever the
    transport's [ReadMsg] reports. *)
Inductive error :=
| errResp (code : errCode)
| errorsNew (text : string)
| errDisc (reason : DiscReason)
| errTransport (text : string)
| errAlreadyRegistered.

(** [io.EOF], which the transport's [ReadMsg] returns once the connection is
    closed. *)
Definition io_EOF : error := errTransport "EOF".

(** [hash.Event] is a [[32]byte]; its [Epoch()] is the big-endian [uint32] in
    its first four bytes. *)
Definition Event := list byte.

#[global] Instance byte_eq_decision : EqDecision byte := Byte.byte_eq_dec.
#[global] Instance Event_eq_decision : EqDecision Event :=
  list_eq_dec (A := byte).

Definition BytesToEpoch (bs : list byte) : Z :=
  fold_left (fun acc b => acc * 256 + Z.of_N (Byte.to_N b)) bs 0.

Definition Event_Epoch (h : Event) : Z := BytesToEpoch (take 4 h).

(** [inter.EventPayload]: this package only counts and logs them; an event is
    kept as its encoded bytes. *)
Definition EventPayload := list byte.

(** [gossip.PeerProgress]. *)
Record PeerProgress := mkPeerProgress {
  Epoch : Z;
  LastBlockIdx : Z;
  LastBlockAtropos : Event
}.

(** The remote's status message. *)
Record handshakeData := mkHandshakeData {
  hd_ProtocolVersion : Z;
  hd_NetworkID : Z;
  hd_Genesis : Event
}.

(** [dagChunk], with the two fields [handleMsg] looks at. *)
Record dagChunk := mkDagChunk {
  IDs : list Event;
  Events : list EventPayload
}.

(** [p2p.Msg]. *)
Record Msg := mkMsg {
  Code : Z;
  Size : Z;
  Payload : list byte
}.

(** [msg.Decode(&v)], one decoder per target type; [None] is a decoding
    error. RLP itself is go-ethereum's. *)
Class Rlp := {
  Decode_handshakeData : Msg -> option handshakeData;
  Decode_PeerProgress : Msg -> option PeerProgress;
  Decode_EventPayloads : Msg -> option (list EventPayload);
  Decode_Events : Msg -> option (list Event);
  Decode_dagChunk : Msg -> option dagChunk
}.

(** The two size constants of the package, declared outside the two source
    files at hand. *)
Class Limits := {
  protocolMaxMsgSize : Z;
  hardLimitItems : Z
}.

(** [enode.Node]: identity and address. *)
Record Node := mkNode {
  ID : N;
  URLv4 : string
}.

(** [common.ClientInfo] and [common.NodeJSON] (field [N] is [nj_N] here). *)
Record ClientInfo := mkClientInfo {
  Blockheight : string
}.

Record NodeJSON := mkNodeJSON {
  nj_N : Node;
  nj_Info : option ClientInfo
}.

(** ** Peer sessions *)

Inductive PeerStatus :=
| PeerUnknown
| PeerFetching
| PeerUseless
| PeerEvil.

(** The session. [Trusted] is [p.Peer.Info().Network.Trusted], [Banned] is
    the answer of [discfilter.Banned(p.Node().ID(), p.Node().Record())],
    [disconnected] records the reason passed to [p.Disconnect]. The stream
    that the handle [p.rw] reads from belongs to the transport: it is the
    [stream] that the functions below take and give back. *)
Record peer := mkPeer {
  peerID : string;
  Name : string;
  node : Node;
  Trusted : bool;
  Banned : bool;
  Status : PeerStatus;
  progress : PeerProgress;
  disconnected : option DiscReason
}.

Abbreviation stream := (list (error + Msg)).

Definition set_Status (s : PeerStatus) (p : peer) : peer :=
  mkPeer (peerID p) (Name p) (node p) (Trusted p) (Banned p) s (progress p)
         (disconnected p).

Definition set_progress (g : PeerProgress) (p : peer) : peer :=
  mkPeer (peerID p) (Name p) (node p) (Trusted p) (Banned p) (Status p) g
         (disconnected p).

Definition Disconnect (r : DiscReason) (p : peer) : peer :=
  mkPeer (peerID p) (Name p) (node p) (Trusted p) (Banned p) (Status p)
         (progress p) (Some r).

(** The statuses on which [handle] publishes a record and returns. *)
Definition terminal (s : PeerStatus) : bool :=
  match s with
  | PeerUseless | PeerEvil => true
  | _ => false
  end.

(** [p.rw.ReadMsg()]: the next read result; on a drained stream the
    connection is closed and the read reports [io.EOF]. *)
Definition ReadMsg (s : stream) : stream * (error + Msg) :=
  match s with
  | [] => ([], inl io_EOF)
  | r :: rest => (rest, r)
  end.

(** ** strings.ToLower, strings.Contains, strconv.FormatUint *)

(** [strings.ToLower] on ASCII text. *)
Definition lower_ascii (c : ascii) : ascii :=
  let n := nat_of_ascii c in
  if ((65 <=? n) && (n <=? 90))%nat then ascii_of_nat (n + 32) else c.

Fixpoint ToLower (s : string) : string :=
  match s with
  | EmptyString => EmptyString
  | String c s' => String (lower_ascii c) (ToLower s')
  end.

Fixpoint HasPrefix (s pre : string) : bool :=
  match pre, s with
  | EmptyString, _ => true
  | String a pre', String c s' => Ascii.eqb a c && HasPrefix s' pre'
  | String _ _, EmptyString => false
  end.

Fixpoint Contains (s sub : string) : bool :=
  HasPrefix s sub ||
  match s with
  | EmptyString => false
  | String _ s' => Contains s' sub
  end.

(** [strconv.FormatUint(v, 10)]. *)
Definition FormatUint (v : Z) : string :=
  NilEmpty.string_of_uint (N.to_uint (Z.to_N v)).

(** ** Channels that are only ever closed, and panics *)

Inductive chanState :=
| chanOpen
| chanClosed.

(** A call either returns or panics. *)
Inductive outcome (A : Type) :=
| Returned (a : A)
| Panicked (why : string).

Arguments Returned {A} a.
Arguments Panicked {A} why.

(** Go's [close(ch)]: closing a closed channel panics. *)
Definition close (ch : chanState) : outcome chanState :=
  match ch with
  | chanOpen => Returned chanClosed
  | chanClosed => Panicked "close of closed channel"
  end.

(** ** The probe backend *)

(** [gossip.NodeInfo], the fields the handshake uses. *)
Record NodeInfo := mkNodeInfo {
  Network : Z;
  Genesis : Event
}.

(** [ProbeBackend]. [peers] holds the identifiers of the registered sessions,
    [output] the records sent on the output channel so far (oldest first),
    [wg] the counter of the wait group. *)
Record ProbeBackend := mkProbeBackend {
  Progress : PeerProgress;
  Info : NodeInfo;
  peers : gset string;
  output : list NodeJSON;
  wg : nat;
  quitSync : chanState
}.

Definition set_peers (s : gset string) (b : ProbeBackend) : ProbeBackend :=
  mkProbeBackend (Progress b) (Info b) s (output b) (wg b) (quitSync b).

Definition send_output (n : NodeJSON) (b : ProbeBackend) : ProbeBackend :=
  mkProbeBackend (Progress b) (Info b) (peers b) (output b ++ [n]) (wg b)
                 (quitSync b).

Definition set_wg (k : nat) (b : ProbeBackend) : ProbeBackend :=
  mkProbeBackend (Progress b) (Info b) (peers b) (output b) k (quitSync b).

Definition set_quitSync (c : chanState) (b : ProbeBackend) : ProbeBackend :=
  mkProbeBackend (Progress b) (Info b) (peers b) (output b) (wg b) c.

(** [NewProbeBackend]. *)
Definition NewProbeBackend (g : PeerProgress) (i : NodeInfo) : ProbeBackend :=
  mkProbeBackend g i ∅ [] 0%nat chanOpen.

(** [ProbeBackend.Close]: close the quit channel, then wait for the handlers.
    [b.wg.Wait()] returns once every handler has called [Done], that is with
    the counter at zero. *)
Definition Close (b : ProbeBackend) : outcome ProbeBackend :=
  match close (quitSync b) with
  | Panicked why => Panicked why
  | Returned ch => Returned (set_wg 0%nat (set_quitSync ch b))
  end.

(** Modelled from the spec: the peer registry ([peerSet], declared outside the
    source files at hand). Registering an identifier that is already present
    is rejected and leaves the registry as it is. *)
Definition RegisterPeer (s : gset string) (p : peer) : gset string * option error :=
  if decide (peerID p ∈ s) then (s, Some errAlreadyRegistered)
  else ({[peerID p]} ∪ s, None).

(** [ProbeBackend.unregisterPeer]: nothing to do when the peer is absent. *)
Definition unregisterPeer (b : ProbeBackend) (id : string) : ProbeBackend :=
  if decide (id ∈ peers b) then set_peers (peers b ∖ {[id]}) b else b.

(** [checkLenLimits]. *)
Definition checkLenLimits `{Limits} (size : Z) : option error :=
  if size <=? 0 then Some (errResp ErrEmptyMessage)
  else if size >? hardLimitItems then Some (errResp ErrMsgTooLarge)
  else None.

Definition len {A} (l : list A) : Z := Z.of_nat (length l).

Section Engine.
Context `{Rlp} `{Limits}.

(** The [switch] of [handleMsg], on a message that was read and passed the
    size gate. *)
Definition dispatch (p : peer) (msg : Msg) : peer * option error :=
  if Code msg =? HandshakeMsg then
    (p, Some (errResp ErrExtraStatusMsg))
  else if Code msg =? ProgressMsg then
    match Decode_PeerProgress msg with
    | None => (p, Some (errResp ErrDecode))
    | Some g =>
        let p := set_progress g p in
        if Epoch g >? Event_Epoch (LastBlockAtropos g)
        then (set_Status PeerEvil p, None)
        else (set_Status PeerUseless p, None)
    end
  else if Code msg =? EvmTxsMsg then (p, None)
  else if Code msg =? NewEvmTxHashesMsg then (p, None)
  else if Code msg =? GetEvmTxsMsg then (p, None)
  else if Code msg =? EventsMsg then
    match Decode_EventPayloads msg with
    | None => (p, Some (errResp ErrDecode))
    | Some events => (p, checkLenLimits (len events))
    end
  else if Code msg =? NewEventIDsMsg then
    match Decode_Events msg with
    | None => (p, Some (errResp ErrDecode))
    | Some announces => (p, checkLenLimits (len announces))
    end
  else if Code msg =? GetEventsMsg then
    match Decode_Events msg with
    | None => (p, Some (errResp ErrDecode))
    | Some requests => (p, checkLenLimits (len requests))
    end
  else if Code msg =? RequestEventsStream then (p, None)
  else if Code msg =? EventsStreamResponse then
    match Decode_dagChunk msg with
    | None => (p, Some (errResp ErrDecode))
    | Some chunk =>
        if (len (Events chunk) <? 1) && (len (IDs chunk) <? 1) then
          (p, Some (errorsNew "expected either events or event hashes"))
        else if (len (Events chunk) >? 0) && (len (IDs chunk) >? 0) then
          (p, Some (errorsNew "expected either events or event hashes"))
        else if len (Events chunk) >? 0 then
          (set_Status PeerUseless p, None)
        else (p, None)
    end
  else if Code msg =? RequestBVsStream then (p, None)
  else if Code msg =? BVsStreamResponse then (p, None)
  else if Code msg =? RequestBRsStream then (p, None)
  else if Code msg =? BRsStreamResponse then (p, None)
  else if Code msg =? RequestEPsStream then (p, None)
  else if Code msg =? EPsStreamResponse then (p, None)
  else (p, Some (errResp ErrInvalidMsgCode)).

(** [ProbeBackend.handleMsg]: read one message, reject it when it is too
    large, otherwise dispatch on its code. *)
Definition handleMsg (b : ProbeBackend) (p : peer) (s : stream)
  : peer * stream * option error :=
  let '(s, r) := ReadMsg s in
  match r with
  | inl err => (p, s, Some err)
  | inr msg =>
      if Size msg >? protocolMaxMsgSize
      then (p, s, Some (errResp ErrMsgTooLarge))
      else let '(p, err) := dispatch p msg in (p, s, err)
  end.

(** Modelled from the spec: [peer.Handshake] (declared outside the source
    files at hand). The engine expects exactly one status message from the
    remote before any other message; the handshake fails when none arrives,
    when the message does not decode, and when the remote's network
    identifier or genesis hash differ from the engine's. Sending the
    engine's own status message leaves the session record as it is. *)
Definition Handshake (network : Z) (g : PeerProgress) (genesis : Event)
           (p : peer) (s : stream) : stream * option error :=
  match s with
  | [] => ([], Some (errDisc DiscReadTimeout))
  | inl err :: rest => (rest, Some err)
  | inr msg :: rest =>
      if negb (Code msg =? HandshakeMsg) then
        (rest, Some (errResp ErrNoStatusMsg))
      else
        match Decode_handshakeData msg with
        | None => (rest, Some (errResp ErrDecode))
        | Some h =>
            if negb (hd_NetworkID h =? network) then
              (rest, Some (errResp ErrNetworkIDMismatch))
            else if negb (bool_decide (hd_Genesis h = genesis)) then
              (rest, Some (errResp ErrGenesisMismatch))
            else (rest, None)
        end
  end.

(** The record [handle] sends on the output channel. *)
Definition probeResult (p : peer) : NodeJSON :=
  mkNodeJSON (node p)
             (Some (mkClientInfo (FormatUint (LastBlockIdx (progress p))))).

(** The [for] loop of [handle]. The recursion follows the stream: every
    call of [handleMsg] takes one read result off it. [serve_step] below
    states the loop in the shape of the source. *)
Fixpoint serve (b : ProbeBackend) (p : peer) (s : stream)
  : ProbeBackend * peer * stream * option error :=
  match s with
  | [] => (b, p, [], Some io_EOF)
  | r :: rest =>
      let '(p', _, err) := handleMsg b p (r :: rest) in
      match err with
      | Some e => (b, p', rest, Some e)
      | None =>
          if terminal (Status p')
          then (send_output (probeResult p') b, p', rest, None)
          else serve b p' rest
      end
  end.

(** The "check useless" test at the head of [handle]. *)
Definition uselessPeer (p : peer) : bool :=
  let useless := Banned p in
  let useless :=
    if negb (Contains (ToLower (Name p)) "opera") then true else useless in
  negb (Trusted p) && useless.

(** [handle] after its first [defer]: everything up to the return value. *)
Definition handleBody (b : ProbeBackend) (p : peer) (s : stream)
  : ProbeBackend * peer * stream * option error :=
  if uselessPeer p then (b, p, s, Some (errDisc DiscUselessPeer))
  else
    let '(s, err) := Handshake (Network (Info b)) (Progress b)
                               (Genesis (Info b)) p s in
    match err with
    | Some e => (b, p, s, Some e)
    | None =>
        let '(reg, err) := RegisterPeer (peers b) p in
        match err with
        | Some e => (b, p, s, Some e)
        | None =>
            let '(b, p, s, ret) := serve (set_peers reg b) p s in
            (* defer b.unregisterPeer(p.id) *)
            (unregisterPeer b (peerID p), p, s, ret)
        end
    end.

(** [ProbeBackend.handle]; the deferred [p.Disconnect(p2p.DiscUselessPeer)]
    runs on every return. *)
Definition handle (b : ProbeBackend) (p : peer) (s : stream)
  : ProbeBackend * peer * stream * option error :=
  let '(b, p, s, ret) := handleBody b p s in
  (b, Disconnect DiscUselessPeer p, s, ret).

(** The [Run] closure of [ProbeProtocols]: a session that finds the quit
    channel closed leaves at once; otherwise it joins the wait group for
    the time of [handle]. *)
Definition Run (b : ProbeBackend) (p : peer) (s : stream)
  : ProbeBackend * peer * stream * option error :=
  match quitSync b with
  | chanClosed => (b, p, s, Some (errDisc DiscQuitting))
  | chanOpen =>
      let '(b, p, s, ret) := handle (set_wg (S (wg b)) b) p s in
      (set_wg (pred (wg b)) b, p, s, ret)
  end.

(** The item count of a message that [handleMsg] decodes as a list and
    passes to [checkLenLimits]. *)
Definition decodedItems (msg : Msg) : option Z :=
  if Code msg =? EventsMsg then len <$> Decode_EventPayloads msg
  else if Code msg =? NewEventIDsMsg then len <$> Decode_Events msg
  else if Code msg =? GetEventsMsg then len <$> Decode_Events msg
  else None.

(** The messages of [pre] are handled one after the other without an error
    and without the session reaching a terminal status; the result is the
    session after the last of them. *)
Fixpoint quiet (b : ProbeBackend) (p : peer) (pre : stream) : option peer :=
  match pre with
  | [] => Some p
  | r :: pre' =>
      match handleMsg b p [r] with
      | (p', _, None) =>
          if terminal (Status p') then None else quiet b p' pre'
      | (_, _, Some _) => None
      end
  end.

End Engine.

(** ** The crawler *)

(** [common.NodeSet] is [map[enode.ID]NodeJSON]. A Go map is a reference: the
    store maps the location of every map to its content; a missing location
    reads as the nil map. *)
Abbreviation NodeSet := (gmap N NodeJSON).
Abbreviation loc := positive.
Abbreviation store := (gmap positive (gmap N NodeJSON)).

Definition deref (st : store) (l : loc) : NodeSet := default ∅ (st !! l).

(** [m[id] = n] on the map at [l]. *)
Definition mapassign (l : loc) (id : N) (n : NodeJSON) (st : store) : store :=
  <[l := <[id := n]> (deref st l)]> st.

(** [make(common.NodeSet, _)]: a new, empty map at a location not in use. *)
Definition make (st : store) : loc * store :=
  let l := fresh (dom st) in (l, <[l := ∅]> st).

(** Modelled from the spec: [Crawler.updateNode] (declared outside the source
    files at hand) merges one probe result into the catalogue it is handed.
    It is called as [c.updateNode(output, n.N, nil)]; no field of [Crawler]
    refers to the caller's node set, so what it does to maps is a function on
    the content of the one map it is given. *)
Class Merge := {
  updateNode : NodeSet -> Node -> option error -> NodeSet
}.

(** [p2p.Server], as far as [Start] and [Stop] use it. [listenError] is what
    binding the listen address will answer. *)
Record Server := mkServer {
  running : bool;
  BootstrapNodes : list Node;
  BootstrapNodesV5 : list Node;
  listenError : option error
}.

Definition server_Start (s : Server) : Server * option error :=
  if running s then (s, Some (errTransport "server already running"))
  else
    match listenError s with
    | Some e => (s, Some e)
    | None =>
        (mkServer true (BootstrapNodes s) (BootstrapNodesV5 s) None, None)
    end.

Definition server_Stop (s : Server) : Server :=
  if running s
  then mkServer false (BootstrapNodes s) (BootstrapNodesV5 s) (listenError s)
  else s.

(** [Crawler]. The [nodes] channel is the [output] of the backend. *)
Record Crawler := mkCrawler {
  server : Server;
  backend : ProbeBackend;
  done : chanState
}.

(** [NewCrawler], after [LoadGenesis] has produced the progress and node
    info and [eNode] has parsed the boot nodes. *)
Definition NewCrawler (g : PeerProgress) (i : NodeInfo) (bootnodes : list Node)
           (listen : option error) : Crawler :=
  mkCrawler (mkServer false bootnodes bootnodes listen)
            (NewProbeBackend g i) chanOpen.

(** What one round of the [select] in the aggregation loop receives. *)
Inductive selected :=
| RecvNode (n : NodeJSON)
| RecvDone.

(** The state of the goroutine started by [Start]: the store, the catalogue
    contents [onUpdatedSet] was called on (oldest first), and whether the
    goroutine has returned. *)
Record aggregation := mkAggregation {
  ag_store : store;
  ag_output : loc;
  ag_calls : list NodeSet;
  ag_returned : bool
}.

Section Aggregation.
Context `{Merge}.

(** The [for { select { ... } }] loop, along the sequence of what the
    successive [select]s receive. The counter [updated] is never assigned
    after its initialisation. When nothing is left to receive the goroutine
    is waiting in [select]. *)
Fixpoint aggregate (output : loc) (updated : Z) (evs : list selected)
         (st : store) (calls : list NodeSet) : aggregation :=
  match evs with
  | [] => mkAggregation st output calls false
  | RecvNode n :: evs' =>
      let st := <[output := updateNode (deref st output) (nj_N n) None]> st in
      let calls :=
        if Z.rem updated 10 =? 0 then calls ++ [deref st output] else calls in
      aggregate output updated evs' st calls
  | RecvDone :: _ =>
      mkAggregation st output (calls ++ [deref st output]) true
  end.

(** The body of the goroutine: copy [input] into a new map, then loop. *)
Definition processNewNodes (input : loc) (evs : list selected) (st : store)
  : aggregation :=
  let '(output, st) := make st in
  let st :=
    foldl (fun st kv => mapassign output kv.1 kv.2 st) st
          (map_to_list (deref st input)) in
  let updated := 0 in
  aggregate output updated evs st [].

(** [Crawler.Start]. A failure to start the server panics; otherwise the
    goroutine runs along [evs]. *)
Definition Start (c : Crawler) (input : loc) (evs : list selected)
           (st : store) : outcome (Crawler * aggregation) :=
  let known := (fun kv : N * NodeJSON => nj_N kv.2) <$>
               map_to_list (deref st input) in
  let srv := mkServer (running (server c))
                      (BootstrapNodes (server c) ++ known)
                      (BootstrapNodesV5 (server c) ++ known)
                      (listenError (server c)) in
  match server_Start srv with
  | (_, Some e) => Panicked "server start failed"
  | (srv, None) =>
      Returned (mkCrawler srv (backend c) (done c),
                processNewNodes input evs st)
  end.

End Aggregation.

(** [Crawler.Stop]. *)
Definition Stop (c : Crawler) : outcome Crawler :=
  let srv := server_Stop (server c) in
  match Close (backend c) with
  | Panicked why => Panicked why
  | Returned b =>
      match close (done c) with
      | Panicked why => Panicked why
      | Returned d => Returned (mkCrawler srv b d)
      end
  end.

(** Modelled from the spec: [newPeer] (declared outside the source files at
    hand) wraps an established connection; the session starts with status
    [Unknown] and no progress. *)
Definition newPeer (id name : string) (n : Node) (trusted banned : bool)
  : peer :=
  mkPeer id name n trusted banned PeerUnknown (mkPeerProgress 0 0 []) None.

(** What handling a message leaves alone: everything but the status and the
    progress. *)
Definition sameConnection (p p' : peer) : Prop :=
  peerID p' = peerID p ∧ Name p' = Name p ∧ node p' = node p ∧
  Trusted p' = Trusted p ∧ Banned p' = Banned p ∧
  disconnected p' = disconnected p.

(** ** The protocol table of [ProbeProtocols] *)

(** [gossip.FTM62], [gossip.FTM63] and [gossip.ProtocolName]. *)
Definition FTM62 : Z := 62.
Definition FTM63 : Z := 63.
Definition ProtocolName : string := "opera".

(** [gossipProtocolLengths]: the number of message codes per version. *)
Definition gossipProtocolLengths : gmap Z Z :=
  {[ FTM62 := EventsStreamResponse + 1; FTM63 := EPsStreamResponse + 1 ]}.

(** [p2p.Protocol]: name, version and length. Its [Run] is [Run] above; the
    info callbacks, the ENR attribute and the dial candidates are not kept. *)
Record Protocol := mkProtocol {
  proto_Name : string;
  proto_Version : Z;
  proto_Length : Z
}.

(** [ProbeProtocols], along [gossip.ProtocolVersions]: one protocol per
    version; a version that is not in the table reads as length 0, as a Go
    map does. *)
Definition ProbeProtocols (versions : list Z) : list Protocol :=
  (fun version =>
     mkProtocol ProtocolName version
                (default 0 (gossipProtocolLengths !! version))) <$> versions.

(** ** Boot nodes *)

(** [enode.Parse(enode.ValidSchemes, url)]; [None] is a parse error. *)
Class Enode := {
  enode_Parse : string -> option Node
}.

(** [eNode]: put the scheme in front of a URL that lacks it, parse, panic on
    a parse error. *)
Definition eNode `{Enode} (url : string) : outcome Node :=
  let url :=
    if negb (HasPrefix url "enode://") then String.append "enode://" url
    else url in
  match enode_Parse url with
  | Some n => Returned n
  | None => Panicked "invalid node URL"
  end.

(** The loop of [NewCrawler] over [bootnodes]: every URL goes through
    [eNode] and the node is appended to both bootstrap lists of the
    configuration. *)
Fixpoint appendBootnodes `{Enode} (bootnodes : list string)
         (boot bootV5 : list Node) : outcome (list Node * list Node) :=
  match bootnodes with
  | [] => Returned (boot, bootV5)
  | url :: rest =>
      match eNode url with
      | Panicked why => Panicked why
      | Returned n => appendBootnodes rest (boot ++ [n]) (bootV5 ++ [n])
      end
  end.

(** ** Genesis *)

(** [opera.Upgrades], a comparable struct of flags. *)
Record Upgrades := mkUpgrades {
  Berlin : bool;
  London : bool;
  Llr : bool
}.

#[global] Instance Upgrades_eq_decision : EqDecision Upgrades.
Proof. solve_decision. Defined.

(** [opera.Rules], the fields [LoadGenesis] reads. *)
Record Rules := mkRules {
  rules_Name : string;
  rules_NetworkID : Z;
  rules_Upgrades : Upgrades
}.

(** [iblockproc.EpochState] and [iblockproc.BlockState]. *)
Record EpochState := mkEpochState {
  es_Epoch : Z;
  es_Rules : Rules
}.

Record BlockCtx := mkBlockCtx {
  Idx : Z;
  Atropos : Event
}.

Record BlockState := mkBlockState {
  LastBlock : BlockCtx
}.

(** [ier.LlrIdxFullEpochRecord]. *)
Record LlrIdxFullEpochRecord := mkEpochRecord {
  er_EpochState : EpochState;
  er_BlockState : BlockState
}.

(** [genesis.Genesis]; [g_Epochs] lists the epoch records in the order in
    which [g.Epochs.ForEach] visits them. *)
Record opera_Genesis := mkGenesis {
  g_NetworkID : Z;
  g_NetworkName : string;
  g_GenesisID : Event;
  g_Epochs : list LlrIdxFullEpochRecord
}.

(** [opera.UpgradeHeight]; the height is a [uint64]. *)
Record UpgradeHeight := mkUpgradeHeight {
  uh_Upgrades : Upgrades;
  uh_Height : Z
}.

(** The variables that the callback of [LoadGenesis] updates. *)
Record genesisVars := mkGenesisVars {
  hh : list UpgradeHeight;
  firstBS : option BlockState;
  firstES : option EpochState;
  lastES : option EpochState
}.

(** The callback passed to [ForEach], on one record. *)
Definition visitEpochRecord (g : opera_Genesis) (v : genesisVars)
           (er : LlrIdxFullEpochRecord) : outcome genesisVars :=
  let es := er_EpochState er in
  let bs := er_BlockState er in
  if negb (rules_NetworkID (es_Rules es) =? g_NetworkID g)
     || negb (String.eqb (rules_Name (es_Rules es)) (g_NetworkName g))
  then Panicked "network ID/name mismatch"
  else
    let hh' :=
      match lastES v with
      | None =>
          hh v ++ [mkUpgradeHeight (rules_Upgrades (es_Rules es))
                                   ((Idx (LastBlock bs) + 1) mod 2 ^ 64)]
      | Some l =>
          if bool_decide (rules_Upgrades (es_Rules es)
                          ≠ rules_Upgrades (es_Rules l))
          then hh v ++ [mkUpgradeHeight (rules_Upgrades (es_Rules es))
                                        ((Idx (LastBlock bs) + 1) mod 2 ^ 64)]
          else hh v
      end in
    Returned
      (mkGenesisVars hh'
         (match firstBS v with None => Some bs | Some f => Some f end)
         (match firstES v with None => Some es | Some f => Some f end)
         (Some es)).

(** [g.Epochs.ForEach] with that callback, which always asks for the next
    record. *)
Fixpoint forEachEpochRecord (g : opera_Genesis) (v : genesisVars)
         (ers : list LlrIdxFullEpochRecord) : outcome genesisVars :=
  match ers with
  | [] => Returned v
  | er :: rest =>
      match visitEpochRecord g v er with
      | Panicked why => Panicked why
      | Returned v' => forEachEpochRecord g v' rest
      end
  end.

(** What [LoadGenesis] stores in the backend next to [Progress] and the
    network and genesis of [NodeInfo]: the other two fields of [NodeInfo],
    the rules [b.Opera], and the upgrade heights from which
    [EvmChainConfig] builds [b.Chain]. *)
Record chainSetup := mkChainSetup {
  info_Epoch : Z;
  info_NumOfBlocks : Z;
  Opera : Rules;
  upgradeHeights : list UpgradeHeight
}.

(** [ProbeBackend.LoadGenesis]. *)
Definition LoadGenesis (b : ProbeBackend) (g : opera_Genesis)
  : outcome (ProbeBackend * chainSetup) :=
  match forEachEpochRecord g (mkGenesisVars [] None None None) (g_Epochs g) with
  | Panicked why => Panicked why
  | Returned v =>
      match firstES v, firstBS v with
      | Some fes, Some fbs =>
          Returned
            (mkProbeBackend
               (mkPeerProgress (es_Epoch fes) (Idx (LastBlock fbs))
                               (Atropos (LastBlock fbs)))
               (mkNodeInfo (g_NetworkID g) (g_GenesisID g))
               (peers b) (output b) (wg b) (quitSync b),
             mkChainSetup (es_Epoch fes) (Idx (LastBlock fbs)) (es_Rules fes)
                          (hh v))
      | _, _ => Panicked "no ERs in genesis"
      end
  end.

(** A record agrees with the genesis on the network. *)
Definition consistentRecord (g : opera_Genesis) (er : LlrIdxFullEpochRecord)
  : Prop :=
  rules_NetworkID (es_Rules (er_EpochState er)) = g_NetworkID g ∧
  rules_Name (es_Rules (er_EpochState er)) = g_NetworkName g.

(** The upgrade height that [LoadGenesis] writes down for a record. *)
Definition upgradeHeightOf (er : LlrIdxFullEpochRecord) : UpgradeHeight :=
  mkUpgradeHeight (rules_Upgrades (es_Rules (er_EpochState er)))
                  ((Idx (LastBlock (er_BlockState er)) + 1) mod 2 ^ 64).

(** No two neighbours of the list carry the same upgrades. *)
Definition adjacentDiffer (l : list UpgradeHeight) : Prop :=
  ∀ i a c, l !! i = Some a → l !! S i = Some c →
           uh_Upgrades a ≠ uh_Upgrades c.

(** What the loop of [LoadGenesis] keeps true of its variables: the heights
    written down so far have differing neighbours, and the last of them
    carries the upgrades of the record visited last. *)
Definition heightsTrack (v : genesisVars) : Prop :=
  adjacentDiffer (hh v) ∧
  match lastES v with
  | None => hh v = []
  | Some l => ∃ h, last (hh v) = Some h ∧
                   uh_Upgrades h = rules_Upgrades (es_Rules l)
  end.

(** The catalogue after the results [ns] have been merged into [m], in the
    order of their arrival. *)
Definition merged `{Merge} (m : NodeSet) (ns : list NodeJSON) : NodeSet :=
  foldl (fun m n => updateNode m (nj_N n) None) m ns.

(** ** Sample data

    A small wire format on which the statements below are exercised: a
    progress message is [epoch; block; atropos...], a list message carries
    one item per byte, a chunk is [k; k identifiers...; events...], a status
    message is [version; network; genesis...]. *)

Definition byteZ (b : byte) : Z := Z.of_N (Byte.to_N b).

#[local] Instance sampleRlp : Rlp := {|
  Decode_handshakeData m :=
    match Payload m with
    | v :: n :: g => Some (mkHandshakeData (byteZ v) (byteZ n) g)
    | _ => None
    end;
  Decode_PeerProgress m :=
    match Payload m with
    | e :: i :: a => Some (mkPeerProgress (byteZ e) (byteZ i) a)
    | _ => None
    end;
  Decode_EventPayloads m := Some ((fun b => [b]) <$> Payload m);
  Decode_Events m := Some ((fun b => [b]) <$> Payload m);
  Decode_dagChunk m :=
    match Payload m with
    | k :: items =>
        let n := N.to_nat (Byte.to_N k) in
        if (n <=? length items)%nat
        then Some (mkDagChunk ((fun b => [b]) <$> take n items)
                              ((fun b => [b]) <$> drop n items))
        else None
    | [] => None
    end
|}.

(** The limits of go-opera: 10 MiB per message, 1000 items per list. *)
#[local] Instance sampleLimits : Limits := {|
  protocolMaxMsgSize := 10 * 1024 * 1024;
  hardLimitItems := 1000
|}.

(** A merge that stores the probed node under its identifier. *)
#[local] Instance sampleMerge : Merge := {|
  updateNode m n _ := <[ID n := mkNodeJSON n None]> m
|}.

Definition sampleNode : Node := mkNode 7 "enode://07@10.0.0.7:5050".
Definition sampleGenesis : Event := ["042"%byte].
Definition sampleProgress : PeerProgress := mkPeerProgress 5 40 [].
Definition sampleInfo : NodeInfo := mkNodeInfo 250 sampleGenesis.
Definition sampleBackend : ProbeBackend :=
  NewProbeBackend sampleProgress sampleInfo.

(** A message whose announced size is the length of its payload. *)
Definition framed (code : Z) (payload : list byte) : Msg :=
  mkMsg code (len payload) payload.

(** The remote's status message: version 63, network 250, same genesis. *)
Definition statusMsg : Msg :=
  framed HandshakeMsg ["063"%byte; "250"%byte; "042"%byte].

(** Progress: epoch 6, block 41, atropos of epoch 5 and of epoch 6. *)
Definition evilProgressMsg : Msg :=
  framed ProgressMsg
         ["006"; "041"; "000"; "000"; "000"; "005"; "170"]%byte.
Definition honestProgressMsg : Msg :=
  framed ProgressMsg
         ["006"; "041"; "000"; "000"; "000"; "006"; "170"]%byte.

(** Stream chunks: two events only, one identifier and one event, nothing. *)
Definition eventsChunkMsg : Msg :=
  framed EventsStreamResponse ["000"; "017"; "018"]%byte.
Definition mixedChunkMsg : Msg :=
  framed EventsStreamResponse ["001"; "017"; "018"]%byte.
Definition emptyChunkMsg : Msg :=
  framed EventsStreamResponse ["000"]%byte.

(** The same frames announced one byte above the limit. *)
Definition oversized (m : Msg) : Msg :=
  mkMsg (Code m) (10 * 1024 * 1024 + 1) (Payload m).

Definition samplePeer (name : string) (trusted banned : bool) : peer :=
  newPeer "0000000000000007" name sampleNode trusted banned.

Definition operaPeer : peer :=
  samplePeer "go-opera/v1.1.3-rc.5/linux-amd64/go1.19" false false.

(** A peer of another client, and an opera peer on the ban list. *)
Definition gethPeer : peer :=
  samplePeer "Geth/v1.10.26-stable/linux-amd64/go1.18.5" false false.

Definition bannedOperaPeer : peer :=
  samplePeer "go-opera/v1.1.3-rc.5/linux-amd64/go1.19" false true.

(** A message that is observed only, and lists of no item and of 1001. *)
Definition txsMsg : Msg := framed EvmTxsMsg ["001"%byte].

(** A crawler, the caller's node set at location 1, and 25 probe results. *)
Definition sampleCrawler : Crawler :=
  NewCrawler sampleProgress sampleInfo [] None.

Definition sampleInput : loc := 1%positive.

Definition sampleStore : store :=
  {[ 1%positive := {[ 7%N := mkNodeJSON sampleNode None ]} ]}.

Definition sampleResults : list NodeJSON :=
  replicate 25 (mkNodeJSON (mkNode 9 "enode://09@10.0.0.9:5050")
                           (Some (mkClientInfo "41"))).

(** More messages: a code outside the protocol, a progress message that does
    not decode, an events message of one item, a chunk of one identifier. *)
Definition unknownMsg : Msg := framed 16 ["001"%byte].
Definition brokenProgressMsg : Msg := framed ProgressMsg [].
Definition oneEventMsg : Msg := framed EventsMsg ["001"%byte].
Definition idsChunkMsg : Msg :=
  framed EventsStreamResponse ["001"; "017"]%byte.

(** An opera peer that spells its name in capitals. *)
Definition shoutingPeer : peer := samplePeer "Go-OPERA/v1.1.3" false false.

(** A parser that takes every URL with the scheme and something behind it. *)
#[local] Instance sampleEnode : Enode := {|
  enode_Parse u :=
    if HasPrefix u "enode://" && negb (String.eqb u "enode://")
    then Some (mkNode (N.of_nat (String.length u)) u)
    else None
|}.

(** A genesis of three epoch records on network 250: the first two under
    the same upgrades, the third with London switched on. *)
Definition sampleRules (u : Upgrades) : Rules := mkRules "main" 250 u.

Definition sampleRecord (epoch block : Z) (u : Upgrades)
  : LlrIdxFullEpochRecord :=
  mkEpochRecord (mkEpochState epoch (sampleRules u))
                (mkBlockState (mkBlockCtx block ["000"; "000"; "000"; "005"]%byte)).

Definition sampleChain : opera_Genesis :=
  mkGenesis 250 "main" sampleGenesis
            [sampleRecord 5 40 (mkUpgrades true false false);
             sampleRecord 6 90 (mkUpgrades true false false);
             sampleRecord 7 130 (mkUpgrades true true false)].


(** * Properties of the probe engine *)

Section EngineProperties.
Context `{Rlp} `{Limits}.

Ltac zbool :=
  first [ apply Z.ltb_lt | apply Z.ltb_ge | apply Z.leb_le | apply Z.leb_gt
        | rewrite Z.gtb_ltb; first [apply Z.ltb_lt | apply Z.ltb_ge] ];
  lia.

Ltac dispatch_cases :=
  unfold dispatch, checkLenLimits;
  repeat case_match; intros; simplify_eq /=; try done.

Lemma dispatch_error (p p' : peer) (msg : Msg) (e : error) :
  dispatch p msg = (p', Some e) → p' = p.
Proof. dispatch_cases. Qed.

Lemma dispatch_frame (p p' : peer) (msg : Msg) (r : option error) :
  dispatch p msg = (p', r) → sameConnection p p'.
Proof. unfold sameConnection. dispatch_cases. Qed.

(** The three messages that are decoded as lists end in
    [checkLenLimits]. *)
Lemma dispatch_list (p : peer) (msg : Msg) (n : Z) :
  decodedItems msg = Some n → dispatch p msg = (p, checkLenLimits n).
Proof.
  unfold decodedItems, dispatch. destruct msg as [c sz pl]. simpl.
  destruct (Z.eqb_spec c EventsMsg) as [->|?].
  { simpl. destruct (Decode_EventPayloads _); by intros [= <-]. }
  destruct (Z.eqb_spec c NewEventIDsMsg) as [->|?].
  { simpl. destruct (Decode_Events _); by intros [= <-]. }
  destruct (Z.eqb_spec c GetEventsMsg) as [->|?]; [|done].
  simpl. destruct (Decode_Events _); by intros [= <-].
Qed.

(** [handleMsg] on a stream whose next read delivers a message, a read
    error, or nothing any more. *)
Lemma handleMsg_msg (b : ProbeBackend) (p : peer) (msg : Msg) (rest : stream) :
  handleMsg b p (inr msg :: rest) =
    if Size msg >? protocolMaxMsgSize
    then (p, rest, Some (errResp ErrMsgTooLarge))
    else let '(p', err) := dispatch p msg in (p', rest, err).
Proof. reflexivity. Qed.

Lemma handleMsg_read_error (b : ProbeBackend) (p : peer) (e : error)
      (rest : stream) :
  handleMsg b p (inl e :: rest) = (p, rest, Some e).
Proof. reflexivity. Qed.

Lemma handleMsg_drained (b : ProbeBackend) (p : peer) :
  handleMsg b p [] = (p, [], Some io_EOF).
Proof. reflexivity. Qed.

(** Every call takes exactly one read result off the stream, whatever
    follows it, and leaves the connection data alone. *)
Lemma handleMsg_tail (b : ProbeBackend) (p : peer) (x : error + Msg)
      (rest : stream) :
  handleMsg b p (x :: rest) =
    let '(p', _, err) := handleMsg b p [x] in (p', rest, err).
Proof.
  destruct x as [e|msg]; [done|].
  rewrite !handleMsg_msg. case_match; [done|]. by destruct (dispatch p msg).
Qed.

Lemma handleMsg_frame (b : ProbeBackend) (p p' : peer) (s s' : stream)
      (r : option error) :
  handleMsg b p s = (p', s', r) → sameConnection p p'.
Proof.
  destruct s as [|[e|msg] rest].
  - by intros [= <- _ _].
  - by intros [= <- _ _].
  - rewrite handleMsg_msg. case_match; [by intros [= <- _ _]|].
    destruct (dispatch p msg) as [q err] eqn:Hd. intros [= <- _ _].
    by eapply dispatch_frame.
Qed.

Lemma handleMsg_error_same (b : ProbeBackend) (p p' : peer) (s s' : stream)
      (e : error) :
  handleMsg b p s = (p', s', Some e) → p' = p.
Proof.
  destruct s as [|[e'|msg] rest].
  - by intros [= <- _ _].
  - by intros [= <- _ _].
  - rewrite handleMsg_msg. case_match; [by intros [= <- _ _]|].
    destruct (dispatch p msg) as [q err] eqn:Hd. intros [= <- _ ->].
    by rewrite (dispatch_error _ _ _ _ Hd).
Qed.

(** The loop of [handle] in the shape of the source: call [handleMsg],
    return its error, otherwise look at the status and go round again. *)
Lemma serve_step (b : ProbeBackend) (p : peer) (s : stream) :
  serve b p s =
    let '(p', s', err) := handleMsg b p s in
    match err with
    | Some e => (b, p', s', Some e)
    | None =>
        if terminal (Status p')
        then (send_output (probeResult p') b, p', s', None)
        else serve b p' s'
    end.
Proof.
  destruct s as [|x rest]; [done|].
  simpl serve. rewrite (handleMsg_tail b p x rest).
  by destruct (handleMsg b p [x]) as [[p' s'] [e|]].
Qed.

(** A quiet prefix of the stream is passed over by the loop. *)
Lemma serve_quiet (b : ProbeBackend) (pre s : stream) :
  ∀ p p1, quiet b p pre = Some p1 → serve b p (pre ++ s) = serve b p1 s.
Proof.
  induction pre as [|x pre IH]; intros p p1 Hq.
  - by injection Hq as ->.
  - simpl in Hq. simpl app. simpl serve.
    rewrite (handleMsg_tail b p x (pre ++ s)).
    destruct (handleMsg b p [x]) as [[p' s'] [e|]]; [done|].
    destruct (terminal (Status p')); [done|]. by apply IH.
Qed.

(** What the loop does on any stream, for a session that is not yet
    classified: either it stops on an error, nothing sent and the status
    still not terminal; or the last message it read made the status
    terminal, it sent the one record and left the rest of the stream
    unread. *)
Lemma serve_spec (b : ProbeBackend) (s : stream) :
  ∀ p b' p' s' ret,
    terminal (Status p) = false →
    serve b p s = (b', p', s', ret) →
    match ret with
    | Some _ => b' = b ∧ terminal (Status p') = false
    | None =>
        terminal (Status p') = true ∧
        b' = send_output (probeResult p') b ∧
        ∃ pre x p1,
          s = pre ++ x :: s' ∧ quiet b p pre = Some p1 ∧
          handleMsg b p1 (x :: s') = (p', s', None)
    end.
Proof.
  induction s as [|x rest IH]; intros p b' p' s' ret Hp Hs.
  - simpl in Hs. by simplify_eq.
  - simpl serve in Hs. pose proof (handleMsg_tail b p x rest) as Ht.
    destruct (handleMsg b p (x :: rest)) as [[q t] err] eqn:Hm.
    destruct (handleMsg b p [x]) as [[q1 t1] err1] eqn:Hm1.
    injection Ht as <- -> <-.
    destruct err as [e|].
    + simplify_eq. split; [done|].
      by rewrite (handleMsg_error_same _ _ _ _ _ _ Hm).
    + destruct (terminal (Status q)) eqn:Hq.
      * simplify_eq. split_and!; [done..|].
        exists [], x, p. by rewrite Hm.
      * specialize (IH q b' p' s' ret Hq Hs). destruct ret as [e|]; [done|].
        destruct IH as (Ht' & Hb & pre & y & p1 & -> & Hpre & Hy).
        split_and!; [done..|]. exists (x :: pre), y, p1.
        split_and!; [done| |done]. simpl. by rewrite Hm1, Hq.
Qed.

Lemma sameConnection_refl (p : peer) : sameConnection p p.
Proof. by unfold sameConnection. Qed.

Lemma sameConnection_trans (p q r : peer) :
  sameConnection p q → sameConnection q r → sameConnection p r.
Proof.
  unfold sameConnection. intros (?&?&?&?&?&?) (?&?&?&?&?&?).
  split_and!; congruence.
Qed.

Lemma serve_frame (b : ProbeBackend) (s : stream) :
  ∀ p b' p' s' ret,
    serve b p s = (b', p', s', ret) →
    sameConnection p p' ∧ peers b' = peers b.
Proof.
  induction s as [|x rest IH]; intros p b' p' s' ret Hs.
  - simpl in Hs. simplify_eq. split; [apply sameConnection_refl|done].
  - simpl serve in Hs.
    destruct (handleMsg b p (x :: rest)) as [[q t] err] eqn:Hm.
    pose proof (handleMsg_frame _ _ _ _ _ _ Hm) as Hf.
    destruct err as [e|]; [by simplify_eq|].
    destruct (terminal (Status q)); [by simplify_eq|].
    destruct (IH _ _ _ _ _ Hs) as [Hc Hp]. split; [|done].
    by eapply sameConnection_trans.
Qed.

(** The backend plays no part in handling one message. *)
Lemma quiet_backend (b b0 : ProbeBackend) (pre : stream) :
  ∀ p, quiet b p pre = quiet b0 p pre.
Proof.
  induction pre as [|x pre IH]; intros p; [done|]. simpl.
  change (handleMsg b p [x]) with (handleMsg b0 p [x]).
  destruct (handleMsg b0 p [x]) as [[q t] [e|]]; [done|].
  by destruct (terminal (Status q)).
Qed.

Lemma quiet_not_terminal (b : ProbeBackend) (pre : stream) :
  ∀ p p1, terminal (Status p) = false → quiet b p pre = Some p1 →
          terminal (Status p1) = false.
Proof.
  induction pre as [|x pre IH]; intros p p1 Hp Hq.
  - by injection Hq as <-.
  - simpl in Hq. destruct (handleMsg b p [x]) as [[q t] [e|]]; [done|].
    destruct (terminal (Status q)) eqn:Ht; [done|]. by eapply IH.
Qed.

Lemma unregister_registered (b : ProbeBackend) (id : string) :
  id ∉ peers b →
  unregisterPeer (set_peers ({[id]} ∪ peers b) b) id = b.
Proof.
  intros Hid. unfold unregisterPeer. simpl.
  rewrite decide_True by set_solver.
  destruct b as [g i ps out w q]. unfold set_peers. simpl in *.
  f_equal. apply set_eq. intros y.
  rewrite elem_of_difference, elem_of_union, elem_of_singleton.
  split; [by intros [[->|?] ?]|]. intros ?. split; [by right|congruence].
Qed.

(** [handle] once the gate, the handshake and the registration are passed:
    the message loop, then the deferred unregistration and disconnect. *)
Lemma handle_served (b : ProbeBackend) (p : peer) (s s1 : stream) :
  uselessPeer p = false →
  Handshake (Network (Info b)) (Progress b) (Genesis (Info b)) p s
    = (s1, None) →
  peerID p ∉ peers b →
  handle b p s =
    let '(b', p', s', ret) :=
      serve (set_peers ({[peerID p]} ∪ peers b) b) p s1 in
    (unregisterPeer b' (peerID p'), Disconnect DiscUselessPeer p', s', ret).
Proof.
  intros Hu Hh Hid. unfold handle, handleBody. rewrite Hu, Hh.
  unfold RegisterPeer. rewrite decide_False by done.
  by destruct (serve _ p s1) as [[[b' p'] s'] ret].
Qed.

(** A session whose loop meets an error after a quiet prefix returns that
    error with the backend as it was before the session: nothing sent, the
    peer unregistered; and the peer is disconnected. *)
Lemma handle_error_after_quiet (b : ProbeBackend) (p p1 : peer)
      (s s1 pre rest : stream) (x : error + Msg) (e : error) :
  uselessPeer p = false →
  Handshake (Network (Info b)) (Progress b) (Genesis (Info b)) p s
    = (s1, None) →
  peerID p ∉ peers b →
  s1 = pre ++ x :: rest →
  quiet b p pre = Some p1 →
  handleMsg b p1 (x :: rest) = (p1, rest, Some e) →
  handle b p s = (b, Disconnect DiscUselessPeer p1, rest, Some e).
Proof.
  intros Hu Hh Hid -> Hq Hm.
  rewrite (handle_served _ _ _ _ Hu Hh Hid).
  set (b1 := set_peers _ b).
  rewrite (serve_quiet b1 pre (x :: rest) p p1)
    by (by rewrite (quiet_backend b1 b)).
  rewrite serve_step.
  change (handleMsg b1 p1 (x :: rest)) with (handleMsg b p1 (x :: rest)).
  rewrite Hm.
  assert (peerID p1 = peerID p) as ->.
  { pose proof (serve_quiet b pre [] p p1 Hq) as Hs. rewrite app_nil_r in Hs.
    destruct (serve b p pre) as [[[b' p'] s'] ret] eqn:Hsv.
    destruct (serve_frame _ _ _ _ _ _ _ Hsv) as [Hc _].
    simpl in Hs. injection Hs as _ <- _ _. apply Hc. }
  subst b1. cbv beta iota. by rewrite unregister_registered.
Qed.

Lemma output_unregisterPeer (b : ProbeBackend) (id : string) :
  output (unregisterPeer b id) = output b.
Proof. unfold unregisterPeer. by case_decide. Qed.

Lemma app_singleton_neq {A} (l : list A) (x : A) : l ++ [x] ≠ l.
Proof.
  intros Hl. apply (f_equal length) in Hl. rewrite length_app in Hl.
  simpl in Hl. lia.
Qed.

(** The two ways [handle] can end for a session that starts unclassified:
    with an error, nothing sent and the session still unclassified; or
    without an error, the session classified by the last message read and
    its record sent. *)
Lemma handleBody_cases (b b1 : ProbeBackend) (p p1 : peer) (s s' : stream)
      (r : option error) :
  terminal (Status p) = false →
  handleBody b p s = (b1, p1, s', r) →
  (∃ e, r = Some e ∧ output b1 = output b ∧ terminal (Status p1) = false) ∨
  (r = None ∧ terminal (Status p1) = true ∧
   output b1 = output b ++ [probeResult p1] ∧
   ∃ s1 pre x q,
     Handshake (Network (Info b)) (Progress b) (Genesis (Info b)) p s
       = (s1, None) ∧
     s1 = pre ++ x :: s' ∧ quiet b p pre = Some q ∧
     terminal (Status q) = false ∧
     handleMsg b q (x :: s') = (p1, s', None)).
Proof.
  intros Hp. unfold handleBody.
  destruct (uselessPeer p).
  { intros [= <- <- <- <-]. left. by eexists. }
  destruct (Handshake _ _ _ p s) as [s1 [e|]] eqn:Hh.
  { intros [= <- <- <- <-]. left. by eexists. }
  unfold RegisterPeer. case_decide.
  { intros [= <- <- <- <-]. left. by eexists. }
  destruct (serve _ p s1) as [[[b2 p2] s2] ret] eqn:Hs.
  intros [= <- <- <- <-]. rewrite output_unregisterPeer.
  apply serve_spec in Hs; [|done]. destruct ret as [e|].
  - destruct Hs as [-> Ht]. left. by eexists.
  - destruct Hs as (Ht & -> & pre & x & q & -> & Hq & Hm). right.
    split_and!; [done..|]. exists (pre ++ x :: s2), pre, x, q.
    rewrite (quiet_backend _ b) in Hq.
    split_and!; [done..| |done]. by eapply quiet_not_terminal.
Qed.

(** ** The claims about the probe engine *)

(** C3, as amended. [handle] turns a peer away as useless before the
    handshake, with nothing read from its stream and nothing sent to the
    output, exactly when the peer is not discovery-trusted and is either
    on the discovery-ban list or does not carry "opera" in its lower-cased
    name. Any other peer goes on to the handshake: [handle] returns the
    handshake's error when it fails, the registry's when the identifier is
    taken, and otherwise enters the message loop. *)
Theorem useless_gate (b : ProbeBackend) (p : peer) (s : stream) :
  (uselessPeer p = true ↔
     Trusted p = false ∧
     (Banned p = true ∨ Contains (ToLower (Name p)) "opera" = false)) ∧
  (uselessPeer p = true →
     handle b p s =
       (b, Disconnect DiscUselessPeer p, s, Some (errDisc DiscUselessPeer))) ∧
  (uselessPeer p = false →
     ∃ s1 err,
       Handshake (Network (Info b)) (Progress b) (Genesis (Info b)) p s
         = (s1, err) ∧
       match err with
       | Some e =>
           handle b p s = (b, Disconnect DiscUselessPeer p, s1, Some e)
       | None =>
           if decide (peerID p ∈ peers b) then
             handle b p s =
               (b, Disconnect DiscUselessPeer p, s1, Some errAlreadyRegistered)
           else
             handle b p s =
               let '(b', p', s', ret) :=
                 serve (set_peers ({[peerID p]} ∪ peers b) b) p s1 in
               (unregisterPeer b' (peerID p'),
                Disconnect DiscUselessPeer p', s', ret)
       end).
Proof.
  split_and!.
  - unfold uselessPeer.
    destruct (Trusted p), (Banned p), (Contains (ToLower (Name p)) "opera");
      simpl; intuition congruence.
  - intros Hu. unfold handle, handleBody. by rewrite Hu.
  - intros Hu.
    destruct (Handshake (Network (Info b)) (Progress b) (Genesis (Info b)) p s)
      as [s1 err] eqn:Hh.
    exists s1, err. split; [done|]. destruct err as [e|].
    + unfold handle, handleBody. by rewrite Hu, Hh.
    + case_decide as Hid.
      * unfold handle, handleBody. rewrite Hu, Hh. unfold RegisterPeer.
        by rewrite decide_True.
      * by apply handle_served.
Qed.

(** C4. A progress message that [handleMsg] decodes successfully (it passed
    the size gate and [msg.Decode] gave the progress [g]) replaces the
    stored progress of the session by [g]; the session is classified Evil
    exactly when the reported epoch is strictly greater than the epoch of
    the reported last-block hash, and Useless otherwise. *)
Theorem progress_update_classifies (b : ProbeBackend) (p : peer) (msg : Msg)
        (rest : stream) (g : PeerProgress) :
  Code msg = ProgressMsg →
  Size msg <= protocolMaxMsgSize →
  Decode_PeerProgress msg = Some g →
  ∃ p',
    handleMsg b p (inr msg :: rest) = (p', rest, None) ∧
    progress p' = g ∧
    (Status p' = PeerEvil ↔ Epoch g > Event_Epoch (LastBlockAtropos g)) ∧
    (Status p' = PeerUseless ↔
       ¬ (Epoch g > Event_Epoch (LastBlockAtropos g))).
Proof.
  intros Hc Hs Hd. rewrite handleMsg_msg.
  assert ((Size msg >? protocolMaxMsgSize) = false) as -> by zbool.
  unfold dispatch. rewrite Hc, Hd. simpl.
  destruct (Z.gtb_spec (Epoch g) (Event_Epoch (LastBlockAtropos g))).
  - eexists. split; [done|]. simpl. split; [done|].
    split; split; intros; try done; lia.
  - eexists. split; [done|]. simpl. split; [done|].
    split; split; intros; try done; lia.
Qed.

(** C6, as amended. [handleMsg] answers a status message that arrives
    after the handshake and is not larger than the maximum size with
    [ErrExtraStatusMsg]. When that message comes in a session that passed
    the handshake, after messages handled without error and without
    classification, [handle] returns that error with the backend as it
    was before the session (no record sent, the peer unregistered) and the
    peer disconnected. *)
Theorem extra_status_tears_down (b : ProbeBackend) (p p1 : peer)
        (s s1 pre rest : stream) (msg : Msg) :
  uselessPeer p = false →
  Handshake (Network (Info b)) (Progress b) (Genesis (Info b)) p s
    = (s1, None) →
  peerID p ∉ peers b →
  s1 = pre ++ inr msg :: rest →
  quiet b p pre = Some p1 →
  Code msg = HandshakeMsg →
  Size msg <= protocolMaxMsgSize →
  handleMsg b p1 (inr msg :: rest)
    = (p1, rest, Some (errResp ErrExtraStatusMsg)) ∧
  handle b p s
    = (b, Disconnect DiscUselessPeer p1, rest,
       Some (errResp ErrExtraStatusMsg)).
Proof.
  intros Hu Hh Hid Hs1 Hq Hc Hs.
  assert (handleMsg b p1 (inr msg :: rest)
          = (p1, rest, Some (errResp ErrExtraStatusMsg))) as Hm.
  { rewrite handleMsg_msg.
    assert ((Size msg >? protocolMaxMsgSize) = false) as -> by zbool.
    unfold dispatch. by rewrite Hc. }
  split; [done|]. by eapply handle_error_after_quiet.
Qed.

(** C7, as amended. For an events stream response whose payload decodes to
    [chunk]: when the chunk holds both identifiers and events, and when it
    holds neither, [handleMsg] returns an error and leaves the session as
    it is; in a session that has got that far without error and without
    classification, [handle] then returns that error with no record sent,
    the peer unregistered and disconnected. When the chunk holds events
    only and the message is not larger than the maximum size, the session
    is classified Useless. *)
Theorem stream_chunk_contents (b : ProbeBackend) (p p1 : peer)
        (s s1 pre rest : stream) (msg : Msg) (chunk : dagChunk) :
  uselessPeer p = false →
  Handshake (Network (Info b)) (Progress b) (Genesis (Info b)) p s
    = (s1, None) →
  peerID p ∉ peers b →
  s1 = pre ++ inr msg :: rest →
  quiet b p pre = Some p1 →
  Code msg = EventsStreamResponse →
  Decode_dagChunk msg = Some chunk →
  ((Events chunk ≠ [] ∧ IDs chunk ≠ []) ∨ (Events chunk = [] ∧ IDs chunk = []) →
     ∃ e, handleMsg b p1 (inr msg :: rest) = (p1, rest, Some e) ∧
          handle b p s = (b, Disconnect DiscUselessPeer p1, rest, Some e) ∧
          (Size msg <= protocolMaxMsgSize →
             e = errorsNew "expected either events or event hashes")) ∧
  (Events chunk ≠ [] → IDs chunk = [] → Size msg <= protocolMaxMsgSize →
     handleMsg b p1 (inr msg :: rest)
       = (set_Status PeerUseless p1, rest, None)).
Proof.
  intros Hu Hh Hid Hs1 Hq Hc Hd.
  assert (∀ A (l : list A), l ≠ [] → 0 < len l) as Hpos.
  { intros A [|a l] Hl; [done|]. unfold len. simpl. lia. }
  split.
  - intros Hboth.
    assert (∃ e, handleMsg b p1 (inr msg :: rest) = (p1, rest, Some e) ∧
                 (Size msg <= protocolMaxMsgSize →
                  e = errorsNew "expected either events or event hashes"))
      as (e & Hm & He).
    { rewrite handleMsg_msg.
      destruct (Z.gtb_spec (Size msg) protocolMaxMsgSize).
      { eexists. split; [done|]. lia. }
      unfold dispatch. rewrite Hc, Hd. simpl.
      destruct Hboth as [[He Hi]|[-> ->]].
      - apply Hpos in He, Hi.
        assert ((len (Events chunk) <? 1) = false) as -> by zbool.
        assert ((len (Events chunk) >? 0) = true) as -> by zbool.
        assert ((len (IDs chunk) >? 0) = true) as -> by zbool.
        simpl. by eexists.
      - simpl. by eexists. }
    exists e. split_and!; [done| |done].
    by eapply handle_error_after_quiet.
  - intros He Hi Hsz. rewrite handleMsg_msg.
    assert ((Size msg >? protocolMaxMsgSize) = false) as -> by zbool.
    unfold dispatch. rewrite Hc, Hd, Hi. simpl. apply Hpos in He.
    assert ((len (Events chunk) <? 1) = false) as -> by zbool.
    by assert ((len (Events chunk) >? 0) = true) as -> by zbool.
Qed.


(** C9. Whenever [handleMsg] returns an error, whichever it is, the status
    and the stored progress of the session are what they were before the
    call. *)
Theorem handleMsg_error_keeps_state (b : ProbeBackend) (p p' : peer)
        (s s' : stream) (e : error) :
  handleMsg b p s = (p', s', Some e) →
  Status p' = Status p ∧ progress p' = progress p.
Proof. intros Hm. by rewrite (handleMsg_error_same _ _ _ _ _ _ Hm). Qed.

(** C5. A session that starts unclassified sends at most one record; it
    sends one exactly when it ends with a terminal status. In that case
    [handle] returns without error, the status was set by the last message
    read, after messages that were handled without error and left the
    session unclassified, and the rest of the stream is left unread. When
    [handle] returns an error, nothing was sent and the session is still
    unclassified. *)
Theorem one_record_per_session (b b' : ProbeBackend) (p p' : peer)
        (s s' : stream) (ret : option error) :
  terminal (Status p) = false →
  handle b p s = (b', p', s', ret) →
  (output b' = output b ∨ output b' = output b ++ [probeResult p']) ∧
  (output b' = output b ++ [probeResult p'] ↔ terminal (Status p') = true) ∧
  (terminal (Status p') = true →
     ret = None ∧
     ∃ s1 pre x p1 p2,
       Handshake (Network (Info b)) (Progress b) (Genesis (Info b)) p s
         = (s1, None) ∧
       s1 = pre ++ x :: s' ∧
       quiet b p pre = Some p1 ∧ terminal (Status p1) = false ∧
       handleMsg b p1 (x :: s') = (p2, s', None) ∧
       p' = Disconnect DiscUselessPeer p2) ∧
  (∀ e, ret = Some e →
        output b' = output b ∧ terminal (Status p') = false).
Proof.
  intros Hp Hh. unfold handle in Hh.
  destruct (handleBody b p s) as [[[b1 p1] s1'] r1] eqn:Hb.
  injection Hh as <- <- <- <-.
  change (probeResult (Disconnect DiscUselessPeer p1)) with (probeResult p1).
  change (Status (Disconnect DiscUselessPeer p1)) with (Status p1).
  destruct (handleBody_cases _ _ _ _ _ _ _ Hp Hb)
    as [(e & -> & Ho & Ht)|(-> & Ht & Ho & s1 & pre & x & q & Hh & Hs & Hq & Hqt & Hm)].
  - split_and!.
    + by left.
    + rewrite Ho, Ht. split; [|done]. intros He. symmetry in He.
      by apply app_singleton_neq in He.
    + by rewrite Ht.
    + done.
  - split_and!.
    + by right.
    + done.
    + intros _. split; [done|]. by exists s1, pre, x, q, p1.
    + done.
Qed.

End EngineProperties.

(** * Properties of the crawler *)

Lemma Close_once (b : ProbeBackend) :
  quitSync b = chanOpen →
  Close b = Returned (set_wg 0%nat (set_quitSync chanClosed b)).
Proof. intros Hq. unfold Close. by rewrite Hq. Qed.

Lemma Close_closed (b : ProbeBackend) :
  quitSync b = chanClosed → Close b = Panicked "close of closed channel".
Proof. intros Hq. unfold Close. by rewrite Hq. Qed.

Section CrawlerProperties.
Context `{Merge}.

Lemma aggregate_output (output : loc) (updated : Z) (evs : list selected) :
  ∀ st calls, ag_output (aggregate output updated evs st calls) = output.
Proof. induction evs as [|[n|] evs IH]; intros st calls; simpl; auto. Qed.

(** The loop writes to the catalogue only. *)
Lemma aggregate_other (output l : loc) (updated : Z) (evs : list selected) :
  l ≠ output →
  ∀ st calls, ag_store (aggregate output updated evs st calls) !! l = st !! l.
Proof.
  intros Hl. induction evs as [|[n|] evs IH]; intros st calls; simpl; auto.
  rewrite IH. by rewrite lookup_insert_ne.
Qed.

(** The stop signal ends the loop with one more call, on the catalogue as
    it is then; whatever could still be received is left. *)
Lemma aggregate_stop (output : loc) (updated : Z) (ns : list NodeJSON)
      (evs : list selected) :
  ∀ st calls,
    aggregate output updated ((RecvNode <$> ns) ++ RecvDone :: evs) st calls =
      let ag := aggregate output updated (RecvNode <$> ns) st calls in
      mkAggregation (ag_store ag) output
                    (ag_calls ag ++ [deref (ag_store ag) output]) true.
Proof. induction ns as [|n ns IH]; intros st calls; simpl; auto. Qed.

Lemma aggregate_waiting (output : loc) (updated : Z) (ns : list NodeJSON) :
  ∀ st calls,
    ag_returned (aggregate output updated (RecvNode <$> ns) st calls) = false.
Proof. induction ns as [|n ns IH]; intros st calls; simpl; auto. Qed.

(** With the counter at zero every received result is followed by a call. *)
Lemma aggregate_calls_zero (output : loc) (ns : list NodeJSON) :
  ∀ st calls,
    length (ag_calls (aggregate output 0 (RecvNode <$> ns) st calls))
    = (length calls + length ns)%nat.
Proof.
  induction ns as [|n ns IH]; intros st calls; simpl; [lia|].
  rewrite IH, length_app. simpl. lia.
Qed.

(** The copy loop writes to the new map only, and adds to it the entries
    it is given. *)
Lemma copy_store (output : loc) (kvs : list (N * NodeJSON)) :
  ∀ st : store,
    is_Some (st !! output) →
    foldl (fun st kv => mapassign output kv.1 kv.2 st) st kvs
    = <[output :=
          foldl (fun (m : NodeSet) kv => <[kv.1 := kv.2]> m)
                (deref st output) kvs]> st.
Proof.
  induction kvs as [|kv kvs IH]; intros st [m Hm]; simpl.
  - unfold deref. rewrite Hm. simpl. by rewrite insert_id.
  - rewrite IH by (unfold mapassign; by rewrite lookup_insert_eq).
    assert (deref (mapassign output kv.1 kv.2 st) output
            = <[kv.1:=kv.2]> (deref st output)) as ->.
    { unfold mapassign. unfold deref at 1. by rewrite lookup_insert_eq. }
    unfold mapassign. by rewrite insert_insert_eq.
Qed.

Lemma copy_rev (l : list (N * NodeJSON)) :
  foldl (fun (m : NodeSet) kv => <[kv.1 := kv.2]> m) ∅ l
  = list_to_map (rev l).
Proof.
  induction l as [|kv l IH] using rev_ind; [done|].
  rewrite foldl_snoc, rev_app_distr. simpl. by rewrite IH.
Qed.

Lemma copy_all (m : NodeSet) :
  foldl (fun (m : NodeSet) kv => <[kv.1 := kv.2]> m) ∅ (map_to_list m) = m.
Proof.
  rewrite copy_rev. rewrite <- (list_to_map_to_list m) at 2.
  symmetry. apply list_to_map_proper.
  - apply NoDup_fst_map_to_list.
  - apply Permutation_rev.
Qed.

(** The goroutine of [Start] on a store that holds the caller's map [m] at
    [input]: a new location receives a copy of [m], and the loop runs on
    it. *)
Lemma processNewNodes_copy (input : loc) (evs : list selected) (st : store)
      (m : NodeSet) :
  st !! input = Some m →
  processNewNodes input evs st =
    aggregate (fresh (dom st)) 0 evs (<[fresh (dom st) := m]> st) [].
Proof.
  intros Hm. unfold processNewNodes, make.
  set (out := fresh (dom st)).
  assert (out ≠ input) as Hne.
  { intros Heq. apply (is_fresh (dom st)). fold out. rewrite Heq.
    apply elem_of_dom. by eexists. }
  assert (deref (<[out:=∅]> st) input = m) as ->.
  { unfold deref. by rewrite lookup_insert_ne, Hm. }
  rewrite copy_store by (by rewrite lookup_insert_eq).
  unfold deref at 1. rewrite lookup_insert_eq. simpl.
  by rewrite copy_all, insert_insert_eq.
Qed.

Lemma Start_returned (c c' : Crawler) (input : loc) (evs : list selected)
      (st : store) (ag : aggregation) :
  Start c input evs st = Returned (c', ag) →
  ag = processNewNodes input evs st ∧
  ∀ evs', Start c input evs' st
          = Returned (c', processNewNodes input evs' st).
Proof.
  unfold Start. destruct (server_Start _) as [srv [e|]]; [done|].
  by intros [= <- <-].
Qed.

(** ** The claims about the crawler *)

(** C1, on the code as it is. In a run of the loop started by [Start] that
    receives 25 results and then the stop signal, [onUpdatedSet] is called
    25 times while the results are processed, once after each of them,
    and once more on stop: 26 calls, where the claim has 3 + 1. The
    counter [updated] stays at zero, so the test [updated%10 == 0] holds
    every time. *)
Theorem callbacks_for_25_results (c c' : Crawler) (input : loc) (st : store)
        (ns : list NodeJSON) (ag : aggregation) :
  length ns = 25%nat →
  Start c input ((RecvNode <$> ns) ++ [RecvDone]) st = Returned (c', ag) →
  length (ag_calls ag) = 26%nat ∧
  ∃ ag0, Start c input (RecvNode <$> ns) st = Returned (c', ag0) ∧
         ag_returned ag0 = false ∧ length (ag_calls ag0) = 25%nat.
Proof.
  intros Hn Hs. destruct (Start_returned _ _ _ _ _ _ Hs) as [-> Hany].
  unfold processNewNodes. destruct (make st) as [out st1].
  split.
  - rewrite aggregate_stop. simpl.
    rewrite length_app, aggregate_calls_zero. simpl. lia.
  - eexists. split; [apply Hany|]. unfold processNewNodes, make.
    split; [apply aggregate_waiting|].
    rewrite aggregate_calls_zero. simpl. lia.
Qed.

(** C2, as amended. [Stop] and [Close] are one-shot. On a crawler whose
    quit and done channels are open the first [Stop] returns and closes
    both, and the first [Close] returns; a second [Close] panics on the
    closed quit channel, and so does a second [Stop], inside [Close] and
    before it reaches [close(c.done)]. The loop of [Start] makes its final
    call exactly once: when the stop signal is received it calls
    [onUpdatedSet] once more on the catalogue and returns, whatever else
    could still be received. *)
Theorem stop_is_one_shot (c c' : Crawler) (input : loc) (st : store)
        (ns : list NodeJSON) (evs : list selected) (ag : aggregation) :
  quitSync (backend c) = chanOpen →
  done c = chanOpen →
  Start c input ((RecvNode <$> ns) ++ RecvDone :: evs) st = Returned (c', ag) →
  (∃ c1 b1,
     Stop c = Returned c1 ∧
     quitSync (backend c1) = chanClosed ∧ done c1 = chanClosed ∧
     Stop c1 = Panicked "close of closed channel" ∧
     Close (backend c) = Returned b1 ∧
     Close b1 = Panicked "close of closed channel") ∧
  (∃ ag0,
     Start c input (RecvNode <$> ns) st = Returned (c', ag0) ∧
     ag_returned ag0 = false ∧
     ag_returned ag = true ∧
     ag_store ag = ag_store ag0 ∧
     ag_calls ag = ag_calls ag0 ++ [deref (ag_store ag0) (ag_output ag0)]).
Proof.
  intros Hq Hd Hs. split.
  - exists (mkCrawler (server_Stop (server c))
                      (set_wg 0%nat (set_quitSync chanClosed (backend c)))
                      chanClosed),
           (set_wg 0%nat (set_quitSync chanClosed (backend c))).
    unfold Stop. rewrite (Close_once _ Hq), Hd. simpl.
    by split_and!.
  - destruct (Start_returned _ _ _ _ _ _ Hs) as [-> Hany].
    eexists. split; [apply Hany|]. unfold processNewNodes.
    destruct (make st) as [out st1]. rewrite aggregate_stop. simpl.
    rewrite aggregate_output. split_and!; try done.
    apply aggregate_waiting.
Qed.

(** C10. [Start] builds its catalogue in a new map: before any result is
    processed the catalogue is at a location that was not in use and holds
    the entries of the caller's map, and the rest of the store is as it
    was. Whatever is received afterwards, the loop writes to the catalogue
    only: the caller's map, like every other map, keeps its content. *)
Theorem Start_keeps_input (c c' : Crawler) (input : loc) (st : store)
        (m : NodeSet) (evs : list selected) (ag : aggregation) :
  st !! input = Some m →
  Start c input evs st = Returned (c', ag) →
  (ag_output ag ∉ dom st) ∧ (ag_output ag ≠ input) ∧
  (∃ ag0, Start c input [] st = Returned (c', ag0) ∧
          ag_output ag0 = ag_output ag ∧
          ag_store ag0 = <[ag_output ag := m]> st) ∧
  ag_store ag !! input = Some m ∧
  (∀ l, l ≠ ag_output ag → ag_store ag !! l = st !! l).
Proof.
  intros Hm Hs. destruct (Start_returned _ _ _ _ _ _ Hs) as [-> Hany].
  rewrite (processNewNodes_copy _ _ _ _ Hm), aggregate_output.
  set (out := fresh (dom st)).
  assert (out ∉ dom st) as Hfresh by apply is_fresh.
  assert (out ≠ input) as Hne.
  { intros Heq. apply Hfresh. rewrite Heq. apply elem_of_dom. by eexists. }
  split_and!; [done..| | |].
  - eexists. split; [apply Hany|].
    by rewrite (processNewNodes_copy _ _ _ _ Hm).
  - rewrite aggregate_other by done. by rewrite lookup_insert_ne.
  - intros l Hl. rewrite aggregate_other by done. by rewrite lookup_insert_ne.
Qed.

End CrawlerProperties.

(** * Further properties of the probe engine *)

Section EngineExtras.
Context `{Rlp} `{Limits}.

Ltac zcmp :=
  first [ apply Z.ltb_lt | apply Z.ltb_ge | apply Z.leb_le | apply Z.leb_gt
        | rewrite Z.gtb_ltb; first [apply Z.ltb_lt | apply Z.ltb_ge] ];
  lia.

(** Case analysis on the code of a message, in the order of the [switch]. *)
Ltac by_code c :=
  unfold dispatch, checkLenLimits; simpl;
  destruct (Z.eqb_spec c HandshakeMsg);
  [|destruct (Z.eqb_spec c ProgressMsg);
  [|destruct (Z.eqb_spec c EvmTxsMsg);
  [|destruct (Z.eqb_spec c NewEvmTxHashesMsg);
  [|destruct (Z.eqb_spec c GetEvmTxsMsg);
  [|destruct (Z.eqb_spec c EventsMsg);
  [|destruct (Z.eqb_spec c NewEventIDsMsg);
  [|destruct (Z.eqb_spec c GetEventsMsg);
  [|destruct (Z.eqb_spec c RequestEventsStream);
  [|destruct (Z.eqb_spec c EventsStreamResponse);
  [|destruct (Z.eqb_spec c RequestBVsStream);
  [|destruct (Z.eqb_spec c BVsStreamResponse);
  [|destruct (Z.eqb_spec c RequestBRsStream);
  [|destruct (Z.eqb_spec c BRsStreamResponse);
  [|destruct (Z.eqb_spec c RequestEPsStream);
  [|destruct (Z.eqb_spec c EPsStreamResponse)]]]]]]]]]]]]]]].

Lemma handleMsg_within_limit (b : ProbeBackend) (p : peer) (msg : Msg)
      (rest : stream) :
  Size msg <= protocolMaxMsgSize →
  handleMsg b p (inr msg :: rest) =
    let '(p', err) := dispatch p msg in (p', rest, err).
Proof.
  intros Hs. rewrite handleMsg_msg.
  by assert ((Size msg >? protocolMaxMsgSize) = false) as -> by zcmp.
Qed.

Lemma dispatch_unknown_code (p p' : peer) (msg : Msg) (r : option error) :
  dispatch p msg = (p', r) →
  (r = Some (errResp ErrInvalidMsgCode) ↔
     Code msg < HandshakeMsg ∨ EPsStreamResponse < Code msg).
Proof.
  destruct msg as [c sz pl]. by_code c;
    unfold HandshakeMsg, ProgressMsg, EvmTxsMsg, NewEvmTxHashesMsg,
      GetEvmTxsMsg, EventsMsg, NewEventIDsMsg, GetEventsMsg,
      RequestEventsStream, EventsStreamResponse, RequestBVsStream,
      BVsStreamResponse, RequestBRsStream, BRsStreamResponse,
      RequestEPsStream, EPsStreamResponse in *;
    repeat case_match; intros; simplify_eq; split; intros; first [done|lia].
Qed.

(** X1. A message within the size limit is answered with
    [ErrInvalidMsgCode] exactly when its code is none of the sixteen codes
    from [HandshakeMsg] to [EPsStreamResponse]. *)
Theorem unknown_code_rejected (b : ProbeBackend) (p : peer) (msg : Msg)
        (rest : stream) :
  Size msg <= protocolMaxMsgSize →
  ((handleMsg b p (inr msg :: rest)).2 = Some (errResp ErrInvalidMsgCode) ↔
     Code msg < HandshakeMsg ∨ EPsStreamResponse < Code msg).
Proof.
  intros Hs. rewrite (handleMsg_within_limit _ _ _ _ Hs).
  destruct (dispatch p msg) as [p' r] eqn:Hd. simpl.
  by eapply dispatch_unknown_code.
Qed.

Lemma protocol_length_bound (version : Z) :
  default 0 (gossipProtocolLengths !! version) <= EPsStreamResponse + 1.
Proof.
  unfold gossipProtocolLengths.
  destruct (decide (version = FTM62)) as [->|?].
  { rewrite lookup_insert_eq. by vm_compute. }
  rewrite lookup_insert_ne by done.
  destruct (decide (version = FTM63)) as [->|?].
  { rewrite lookup_singleton_eq. by vm_compute. }
  rewrite lookup_singleton_ne by done. by vm_compute.
Qed.

(** X2. Every message code below the length that [ProbeProtocols]
    advertises for a version is one that [handleMsg] knows: within the size
    limit it is never answered with [ErrInvalidMsgCode]. For [FTM63] the
    advertised length is exactly the number of known codes, for [FTM62] it
    stops after [EventsStreamResponse], and a version that is not in the
    table is advertised with length 0. *)
Theorem advertised_codes_are_known (b : ProbeBackend) (p : peer) (msg : Msg)
        (rest : stream) (versions : list Z) (proto : Protocol) :
  proto ∈ ProbeProtocols versions →
  Size msg <= protocolMaxMsgSize →
  0 <= Code msg < proto_Length proto →
  (handleMsg b p (inr msg :: rest)).2 ≠ Some (errResp ErrInvalidMsgCode) ∧
  proto_Name proto = "opera" ∧
  (proto_Version proto = FTM63 → proto_Length proto = EPsStreamResponse + 1) ∧
  (proto_Version proto = FTM62 →
     proto_Length proto = EventsStreamResponse + 1) ∧
  (proto_Version proto ≠ FTM62 → proto_Version proto ≠ FTM63 →
     proto_Length proto = 0).
Proof.
  intros Hin Hs Hc. unfold ProbeProtocols in Hin.
  apply list_elem_of_fmap in Hin as (version & -> & _). simpl in *.
  split_and!.
  - rewrite (unknown_code_rejected _ _ _ _ Hs).
    pose proof (protocol_length_bound version).
    unfold HandshakeMsg, EPsStreamResponse in *. lia.
  - done.
  - by intros ->.
  - by intros ->.
  - intros H62 H63. unfold gossipProtocolLengths.
    by rewrite lookup_insert_ne, lookup_singleton_ne.
Qed.

(** X3. The ten codes that the [switch] answers with a bare [break] are
    accepted within the size limit whatever the payload holds: nothing is
    decoded and the session is left as it is. *)
Theorem observed_only_messages (b : ProbeBackend) (p : peer) (msg : Msg)
        (rest : stream) :
  Code msg ∈ [EvmTxsMsg; NewEvmTxHashesMsg; GetEvmTxsMsg; RequestEventsStream;
              RequestBVsStream; BVsStreamResponse; RequestBRsStream;
              BRsStreamResponse; RequestEPsStream; EPsStreamResponse] →
  Size msg <= protocolMaxMsgSize →
  handleMsg b p (inr msg :: rest) = (p, rest, None).
Proof.
  intros Hc Hs. rewrite (handleMsg_within_limit _ _ _ _ Hs).
  destruct msg as [c sz pl]. simpl in Hc.
  repeat (apply elem_of_cons in Hc as [->|Hc]; [reflexivity|]).
  by apply elem_of_nil in Hc.
Qed.

(** X4. A message that is decoded as a list ([EventsMsg], [NewEventIDsMsg],
    [GetEventsMsg]) never changes the session; within the size limit it is
    accepted exactly when it holds at least one item and at most
    [hardLimitItems]. *)
Theorem list_message_accepted (b : ProbeBackend) (p : peer) (msg : Msg)
        (rest : stream) (n : Z) :
  Size msg <= protocolMaxMsgSize →
  decodedItems msg = Some n →
  ∃ r, handleMsg b p (inr msg :: rest) = (p, rest, r) ∧
       (r = None ↔ 0 < n <= hardLimitItems).
Proof.
  intros Hs Hn. rewrite (handleMsg_within_limit _ _ _ _ Hs).
  rewrite (dispatch_list _ _ _ Hn). eexists. split; [done|].
  unfold checkLenLimits.
  destruct (Z.leb_spec n 0); [split; [done|lia]|].
  rewrite Z.gtb_ltb. destruct (Z.ltb_spec hardLimitItems n); split; try done; lia.
Qed.

(** X5. When the payload of a message that [handleMsg] decodes does not
    decode, the answer is [ErrDecode] and the session is left as it is. *)
Theorem undecodable_payload (b : ProbeBackend) (p : peer) (msg : Msg)
        (rest : stream) :
  Size msg <= protocolMaxMsgSize →
  (Code msg = ProgressMsg ∧ Decode_PeerProgress msg = None) ∨
  (Code msg = EventsMsg ∧ Decode_EventPayloads msg = None) ∨
  (Code msg = NewEventIDsMsg ∧ Decode_Events msg = None) ∨
  (Code msg = GetEventsMsg ∧ Decode_Events msg = None) ∨
  (Code msg = EventsStreamResponse ∧ Decode_dagChunk msg = None) →
  handleMsg b p (inr msg :: rest) = (p, rest, Some (errResp ErrDecode)).
Proof.
  intros Hs Hd. rewrite (handleMsg_within_limit _ _ _ _ Hs).
  unfold dispatch.
  destruct Hd as [[-> ->]|[[-> ->]|[[-> ->]|[[-> ->]|[-> ->]]]]]; reflexivity.
Qed.

(** X6. An events stream response whose chunk holds identifiers only is
    accepted and does not classify the session. *)
Theorem identifiers_only_chunk (b : ProbeBackend) (p : peer) (msg : Msg)
        (rest : stream) (chunk : dagChunk) :
  Size msg <= protocolMaxMsgSize →
  Code msg = EventsStreamResponse →
  Decode_dagChunk msg = Some chunk →
  Events chunk = [] → IDs chunk ≠ [] →
  handleMsg b p (inr msg :: rest) = (p, rest, None).
Proof.
  intros Hs Hc Hd He Hi. rewrite (handleMsg_within_limit _ _ _ _ Hs).
  unfold dispatch. rewrite Hc, Hd, He. simpl.
  assert ((len (IDs chunk) <? 1) = false) as ->; [|done].
  destruct (IDs chunk); [done|]. unfold len. simpl. zcmp.
Qed.

Lemma dispatch_errors (p p' : peer) (msg : Msg) (e : error) :
  dispatch p msg = (p', Some e) →
  e ∈ [errResp ErrExtraStatusMsg; errResp ErrDecode; errResp ErrEmptyMessage;
       errResp ErrMsgTooLarge;
       errorsNew "expected either events or event hashes";
       errResp ErrInvalidMsgCode].
Proof.
  unfold dispatch, checkLenLimits.
  repeat case_match; intros; simplify_eq; set_solver.
Qed.

(** X7. The errors of [handleMsg]: what the read itself reported (the end
    of the stream included), or one of [ErrMsgTooLarge],
    [ErrExtraStatusMsg], [ErrDecode], [ErrEmptyMessage], the
    chunk-contents error and [ErrInvalidMsgCode]; nothing else. *)
Theorem handleMsg_errors (b : ProbeBackend) (p p' : peer) (s s' : stream)
        (e : error) :
  handleMsg b p s = (p', s', Some e) →
  (s = [] ∧ e = io_EOF) ∨ (∃ rest, s = inl e :: rest) ∨
  e ∈ [errResp ErrExtraStatusMsg; errResp ErrDecode; errResp ErrEmptyMessage;
       errResp ErrMsgTooLarge;
       errorsNew "expected either events or event hashes";
       errResp ErrInvalidMsgCode].
Proof.
  destruct s as [|[e'|msg] rest].
  - intros [= _ _ <-]. by left.
  - intros [= _ _ <-]. right. left. by eexists.
  - rewrite handleMsg_msg. right. right. case_match.
    + simplify_eq. set_solver.
    + destruct (dispatch p msg) as [q r] eqn:Hd. simplify_eq.
      by eapply dispatch_errors.
Qed.

Lemma dispatch_changes (p p' : peer) (msg : Msg) (r : option error) :
  dispatch p msg = (p', r) →
  (Status p' = Status p ∨ Status p' = PeerEvil ∨ Status p' = PeerUseless) ∧
  (progress p' = progress p ∨
   Code msg = ProgressMsg ∧ Decode_PeerProgress msg = Some (progress p')).
Proof.
  unfold dispatch.
  destruct (Z.eqb_spec (Code msg) HandshakeMsg); [intros; simplify_eq; auto|].
  destruct (Z.eqb_spec (Code msg) ProgressMsg).
  { destruct (Decode_PeerProgress msg) eqn:Hd; [|intros; simplify_eq; auto].
    case_match; intros; simplify_eq; simpl; auto. }
  repeat case_match; intros; simplify_eq; simpl; auto.
Qed.

(** X8. One call of [handleMsg] either leaves the status as it is or sets
    it to [PeerEvil] or [PeerUseless]; it never sets [PeerFetching] and
    never goes back to [PeerUnknown]. The stored progress changes only on a
    progress message, to what that message decodes to. Identity, name,
    node and trust of the session are never touched. *)
Theorem handleMsg_changes (b : ProbeBackend) (p p' : peer) (s s' : stream)
        (r : option error) :
  handleMsg b p s = (p', s', r) →
  (Status p' = Status p ∨ Status p' = PeerEvil ∨ Status p' = PeerUseless) ∧
  (progress p' = progress p ∨
   ∃ msg rest, s = inr msg :: rest ∧ Code msg = ProgressMsg ∧
               Decode_PeerProgress msg = Some (progress p')) ∧
  sameConnection p p'.
Proof.
  intros Hm. split_and!; [| |by eapply handleMsg_frame].
  - destruct s as [|[e|msg] rest];
      [injection Hm as <- _ _; by left..|].
    rewrite handleMsg_msg in Hm. case_match; [injection Hm as <- _ _; by left|].
    destruct (dispatch p msg) as [q e] eqn:Hd. simplify_eq.
    by destruct (dispatch_changes _ _ _ _ Hd).
  - destruct s as [|[e|msg] rest];
      [injection Hm as <- _ _; by left..|].
    rewrite handleMsg_msg in Hm. case_match; [injection Hm as <- _ _; by left|].
    destruct (dispatch p msg) as [q e] eqn:Hd. simplify_eq.
    destruct (dispatch_changes _ _ _ _ Hd) as [_ [?|[? ?]]]; [by left|].
    right. by eexists _, _.
Qed.

Lemma serve_backend (b : ProbeBackend) (s : stream) :
  ∀ p b' p' s' ret,
    serve b p s = (b', p', s', ret) →
    (b' = b ∨ b' = send_output (probeResult p') b) ∧
    (Status p' = Status p ∨ terminal (Status p') = true).
Proof.
  induction s as [|x rest IH]; intros p b' p' s' ret Hs.
  - simpl in Hs. simplify_eq. auto.
  - simpl serve in Hs.
    destruct (handleMsg b p (x :: rest)) as [[q t] err] eqn:Hm.
    destruct err as [e|].
    + simplify_eq. rewrite (handleMsg_error_same _ _ _ _ _ _ Hm). auto.
    + destruct (terminal (Status q)) eqn:Hq; [simplify_eq; auto|].
      destruct (IH _ _ _ _ _ Hs) as [Hb [Hst|Hst]]; [|auto].
      split; [done|]. rewrite Hst.
      destruct (handleMsg_changes _ _ _ _ _ _ Hm) as [[->|[Hq'|Hq']] _];
        [by left|rewrite Hq' in Hq; done..].
Qed.

Lemma quiet_frame (b : ProbeBackend) (pre : stream) :
  ∀ p p1, quiet b p pre = Some p1 → sameConnection p p1.
Proof.
  induction pre as [|x pre IH]; intros p p1 Hq.
  - injection Hq as <-. apply sameConnection_refl.
  - simpl in Hq. destruct (handleMsg b p [x]) as [[q t] [e|]] eqn:Hm; [done|].
    destruct (terminal (Status q)); [done|].
    eapply sameConnection_trans; [by eapply handleMsg_frame|by apply IH].
Qed.

Lemma registry_restored (reg : gset string) (id : string) :
  id ∉ reg → ({[id]} ∪ reg) ∖ {[id]} = reg.
Proof.
  intros Hid. apply set_eq. intros y.
  rewrite elem_of_difference, elem_of_union, elem_of_singleton.
  split; [by intros [[->|?] ?]|]. intros ?. split; [by right|congruence].
Qed.

(** X9. However [handle] ends, it leaves the registry as it found it, so a
    session that was registered is unregistered again, and the peer is
    disconnected with [DiscUselessPeer]. Apart from the output, the backend
    is unchanged, and so are the identity and the node of the peer; its
    status is the one it started with or a terminal one. *)
Theorem handle_cleans_up (b b' : ProbeBackend) (p p' : peer) (s s' : stream)
        (ret : option error) :
  handle b p s = (b', p', s', ret) →
  peers b' = peers b ∧ wg b' = wg b ∧ quitSync b' = quitSync b ∧
  Progress b' = Progress b ∧ Info b' = Info b ∧
  disconnected p' = Some DiscUselessPeer ∧
  peerID p' = peerID p ∧ node p' = node p ∧
  (Status p' = Status p ∨ terminal (Status p') = true).
Proof.
  unfold handle, handleBody.
  destruct (uselessPeer p); [intros; simplify_eq; by auto 10|].
  destruct (Handshake _ _ _ p s) as [s1 [e|]]; [intros; simplify_eq; by auto 10|].
  unfold RegisterPeer. case_decide as Hid; [intros; simplify_eq; by auto 10|].
  destruct (serve _ p s1) as [[[b2 p2] s2] r] eqn:Hs.
  intros [= <- <- <- <-].
  destruct (serve_frame _ _ _ _ _ _ _ Hs) as [(Hpid & _ & Hn & _) Hp].
  destruct (serve_backend _ _ _ _ _ _ _ Hs) as [Hb Hst].
  simpl in Hp.
  assert (peers (unregisterPeer b2 (peerID p2)) = peers b) as Hreg.
  { unfold unregisterPeer. rewrite Hpid, Hp.
    rewrite decide_True by (apply elem_of_union; left; by apply elem_of_singleton).
    simpl. by apply registry_restored. }
  unfold unregisterPeer in *. case_decide;
    destruct Hb as [->| ->]; simpl in *; split_and!; done.
Qed.

(** X10. Once [Close] has returned, a session that enters [Run] leaves at
    once with [DiscQuitting]: nothing is read from its stream, nothing is
    sent, the backend and the peer are untouched. The same holds after
    [Stop]. *)
Theorem closed_backend_turns_sessions_away (b b' : ProbeBackend) (p : peer)
        (s : stream) :
  Close b = Returned b' →
  Run b' p s = (b', p, s, Some (errDisc DiscQuitting)) ∧
  ∀ c c', backend c = b → Stop c = Returned c' →
          Run (backend c') p s
          = (backend c', p, s, Some (errDisc DiscQuitting)).
Proof.
  unfold Close. destruct (quitSync b) eqn:Hq; [|done]. simpl.
  intros [= <-]. split; [done|].
  intros c c' <-. unfold Stop, Close. rewrite Hq. simpl.
  destruct (close (done c)); [|done]. by intros [= <-].
Qed.

(** X11. While the quit channel is open, [Run] joins the wait group for the
    time of [handle] and leaves it on return: [handle] runs with the
    counter one higher, and after [Run] the counter and the registry are
    what they were. *)
Theorem Run_leaves_wait_group (b b' : ProbeBackend) (p p' : peer)
        (s s' : stream) (ret : option error) :
  quitSync b = chanOpen →
  Run b p s = (b', p', s', ret) →
  (∃ b1, handle (set_wg (S (wg b)) b) p s = (b1, p', s', ret) ∧
         wg b1 = S (wg b) ∧ output b' = output b1) ∧
  wg b' = wg b ∧ peers b' = peers b ∧ quitSync b' = chanOpen.
Proof.
  intros Hq. unfold Run. rewrite Hq.
  destruct (handle _ p s) as [[[b1 p1] s1] r] eqn:Hh.
  intros [= <- <- <- <-].
  destruct (handle_cleans_up _ _ _ _ _ _ _ Hh) as (Hp & Hw & Hqs & _).
  simpl in *. split_and!; try done.
  - by exists b1.
  - by rewrite Hw.
  - by rewrite Hqs.
Qed.

Lemma ToLower_app (a c : string) :
  ToLower (String.append a c) = String.append (ToLower a) (ToLower c).
Proof. induction a as [|x a IH]; simpl; [done|]. by rewrite IH. Qed.

Lemma HasPrefix_app (w s : string) : HasPrefix (String.append w s) w = true.
Proof.
  induction w as [|x w IH]; simpl; [by destruct s|].
  by rewrite Ascii.eqb_refl, IH.
Qed.

Lemma Contains_prefix (s w : string) :
  HasPrefix s w = true → Contains s w = true.
Proof. destruct s; simpl; by intros ->. Qed.

Lemma Contains_app (pre w suf : string) :
  Contains (String.append pre (String.append w suf)) w = true.
Proof.
  induction pre as [|x pre IH].
  - change (String.append "" (String.append w suf))
      with (String.append w suf).
    apply Contains_prefix. apply HasPrefix_app.
  - simpl. rewrite IH. apply orb_true_r.
Qed.

(** X12. The name test of the gate does not depend on letter case: a peer
    whose name holds "opera" in any mix of upper and lower case, anywhere
    in the name, and that is not on the ban list, is never turned away as
    useless, trusted or not. *)
Theorem name_test_ignores_case (p : peer) (pre w suf : string) :
  Name p = String.append pre (String.append w suf) →
  ToLower w = "opera" →
  Banned p = false →
  uselessPeer p = false.
Proof.
  intros Hn Hw Hb. unfold uselessPeer.
  rewrite Hn, !ToLower_app, Hw, Contains_app, Hb. simpl. apply andb_false_r.
Qed.

Lemma unregister_send_output (b : ProbeBackend) (r : NodeJSON) (id : string) :
  unregisterPeer (send_output r b) id = send_output r (unregisterPeer b id).
Proof. unfold unregisterPeer. simpl. by case_decide. Qed.

(** X13. Scenarios A and B in general. In a session that passed the gate,
    the handshake and the registration, the first progress message that
    follows messages handled without error and without classification ends
    the session without error: [handle] sends exactly one record, made of
    the peer's node and of the reported last block index in decimal, the
    session keeps the reported progress, and the rest of the stream is
    left unread. *)
Theorem progress_message_publishes (b : ProbeBackend) (p p1 : peer)
        (s s1 pre rest : stream) (msg : Msg) (g : PeerProgress) :
  uselessPeer p = false →
  Handshake (Network (Info b)) (Progress b) (Genesis (Info b)) p s
    = (s1, None) →
  peerID p ∉ peers b →
  s1 = pre ++ inr msg :: rest →
  quiet b p pre = Some p1 →
  Code msg = ProgressMsg →
  Size msg <= protocolMaxMsgSize →
  Decode_PeerProgress msg = Some g →
  ∃ p',
    handle b p s
    = (send_output
         (mkNodeJSON (node p)
                     (Some (mkClientInfo (FormatUint (LastBlockIdx g))))) b,
       p', rest, None) ∧
    progress p' = g ∧
    Status p' = (if Epoch g >? Event_Epoch (LastBlockAtropos g)
                 then PeerEvil else PeerUseless).
Proof.
  intros Hu Hh Hid -> Hq Hc Hs Hd.
  rewrite (handle_served _ _ _ _ Hu Hh Hid).
  set (b1 := set_peers _ b).
  rewrite (serve_quiet b1 pre (inr msg :: rest) p p1)
    by (by rewrite (quiet_backend b1 b)).
  rewrite serve_step, (handleMsg_within_limit _ _ _ _ Hs).
  unfold dispatch. rewrite Hc, Hd. simpl.
  destruct (quiet_frame _ _ _ _ Hq) as (Hpid & _ & Hn & _).
  destruct (Epoch g >? Event_Epoch (LastBlockAtropos g)); simpl;
    (eexists; split;
     [rewrite unregister_send_output, Hpid; subst b1;
      rewrite unregister_registered by done;
      unfold probeResult; simpl; by rewrite Hn
     |by split]).
Qed.

End EngineExtras.

(** * Further properties of the crawler *)

(** X14. [Stop] panics exactly when the quit channel of the backend or the
    done channel is already closed. When it returns, the server is stopped
    and both channels are closed, while the records sent so far, the
    registry and the bootstrap lists are kept. *)
Theorem Stop_outcome (c : Crawler) :
  ((∃ why, Stop c = Panicked why) ↔
     quitSync (backend c) = chanClosed ∨ done c = chanClosed) ∧
  (∀ c', Stop c = Returned c' →
         running (server c') = false ∧
         quitSync (backend c') = chanClosed ∧ done c' = chanClosed ∧
         output (backend c') = output (backend c) ∧
         peers (backend c') = peers (backend c) ∧
         BootstrapNodes (server c') = BootstrapNodes (server c) ∧
         BootstrapNodesV5 (server c') = BootstrapNodesV5 (server c)).
Proof.
  unfold Stop, Close, server_Stop.
  destruct (quitSync (backend c)) eqn:Hq, (done c) eqn:Hd; simpl.
  - split.
    + split; [intros [why Hw]; discriminate|intros [?|?]; discriminate].
    + intros c' [= <-]. simpl.
      destruct (running (server c)) eqn:Hr; simpl; rewrite ?Hr; done.
  - split; [|done]. split; [by right|by eexists].
  - split; [|done]. split; [by left|by eexists].
  - split; [|done]. split; [by left|by eexists].
Qed.

Section AggregationExtras.
Context `{Merge}.

Lemma aggregate_results (output : loc) (ns : list NodeJSON) :
  ∀ (st : store) (calls : list NodeSet) (m0 : NodeSet),
    st !! output = Some m0 →
    aggregate output 0 (RecvNode <$> ns) st calls =
      mkAggregation (<[output := merged m0 ns]> st) output
        (calls ++ ((fun k => merged m0 (take k ns)) <$> seq 1 (length ns)))
        false.
Proof.
  induction ns as [|n ns IH]; intros st calls m0 Hm; simpl.
  - by rewrite insert_id, app_nil_r.
  - assert (deref st output = m0) as Hd by (unfold deref; by rewrite Hm).
    rewrite Hd.
    rewrite (IH _ _ (updateNode m0 (nj_N n) None))
      by (by rewrite lookup_insert_eq).
    rewrite insert_insert_eq. f_equal.
    unfold deref. rewrite lookup_insert_eq. simpl.
    rewrite <- app_assoc. f_equal. simpl. f_equal.
    generalize 1%nat. generalize (length ns). intros k.
    induction k as [|k IHk]; intros start; simpl; [done|].
    f_equal. apply IHk.
Qed.

(** X15. The loop of [Start] merges the results in the order of their
    arrival, starting from the copy of the caller's node set: when the stop
    signal comes after the results [ns], the catalogue holds [merged m ns]
    and the last call of [onUpdatedSet] was on that catalogue; every
    catalogue that [onUpdatedSet] was called on is the caller's node set
    with the first so many results merged. *)
Theorem results_merged_in_order (c c' : Crawler) (input : loc) (st : store)
        (m : NodeSet) (ns : list NodeJSON) (evs : list selected)
        (ag : aggregation) :
  st !! input = Some m →
  Start c input ((RecvNode <$> ns) ++ RecvDone :: evs) st = Returned (c', ag) →
  ag_store ag !! ag_output ag = Some (merged m ns) ∧
  last (ag_calls ag) = Some (merged m ns) ∧
  (∀ snap, snap ∈ ag_calls ag → ∃ k, snap = merged m (take k ns)).
Proof.
  intros Hm Hs. destruct (Start_returned _ _ _ _ _ _ Hs) as [-> _].
  rewrite (processNewNodes_copy _ _ _ _ Hm), aggregate_stop.
  rewrite (aggregate_results _ _ _ _ m) by (by rewrite lookup_insert_eq).
  simpl. unfold deref. rewrite insert_insert_eq, lookup_insert_eq. simpl.
  split_and!; [done|apply last_snoc|].
  intros snap Hin. apply elem_of_app in Hin as [Hin|Hin].
  - apply list_elem_of_fmap in Hin as (k & -> & _). by exists k.
  - apply list_elem_of_singleton in Hin as ->. exists (length ns).
    by rewrite firstn_all.
Qed.

(** X16. [Start] adds the node of every entry of the caller's node set, and
    nothing else, to both bootstrap lists, behind the boot nodes that were
    configured before; it starts the server and leaves the backend and the
    done channel alone. *)
Theorem Start_seeds_bootstrap (c c' : Crawler) (input : loc) (st : store)
        (m : NodeSet) (evs : list selected) (ag : aggregation) :
  st !! input = Some m →
  Start c input evs st = Returned (c', ag) →
  ∃ known,
    BootstrapNodes (server c') = BootstrapNodes (server c) ++ known ∧
    BootstrapNodesV5 (server c') = BootstrapNodesV5 (server c) ++ known ∧
    length known = size m ∧
    (∀ n, n ∈ known ↔ ∃ id e, m !! id = Some e ∧ nj_N e = n) ∧
    running (server c') = true ∧
    backend c' = backend c ∧ done c' = done c.
Proof.
  intros Hm. unfold Start, server_Start. simpl.
  assert (deref st input = m) as -> by (unfold deref; by rewrite Hm).
  destruct (running (server c)); [done|].
  destruct (listenError (server c)); [done|].
  intros [= <- _]. simpl.
  exists ((fun kv : N * NodeJSON => nj_N kv.2) <$> map_to_list m).
  split_and!; try done.
  - by rewrite length_fmap, length_map_to_list.
  - intros n. rewrite list_elem_of_fmap. split.
    + intros ([id e] & -> & Hin). apply elem_of_map_to_list in Hin.
      by exists id, e.
    + intros (id & e & He & <-). exists (id, e).
      split; [done|]. by apply elem_of_map_to_list.
Qed.

End AggregationExtras.

Section BootnodeExtras.
Context `{Enode}.

Lemma HasPrefix_scheme (url : string) :
  HasPrefix (String.append "enode://" url) "enode://" = true.
Proof. apply HasPrefix_app. Qed.

(** X18. The loop over the boot nodes of [NewCrawler]: when it returns,
    both bootstrap lists have grown by the same nodes, one per URL and in
    the order of the URLs, each being what [eNode] makes of its URL; it
    panics exactly when [eNode] panics on one of the URLs. *)
Theorem appendBootnodes_outcome (bootnodes : list string)
        (boot bootV5 : list Node) :
  (∀ r, appendBootnodes bootnodes boot bootV5 = Returned r →
        ∃ ns, r = (boot ++ ns, bootV5 ++ ns) ∧
              Forall2 (fun url n => eNode url = Returned n) bootnodes ns) ∧
  ((∃ why, appendBootnodes bootnodes boot bootV5 = Panicked why) ↔
     ∃ url, url ∈ bootnodes ∧ ∃ why, eNode url = Panicked why).
Proof.
  revert boot bootV5.
  induction bootnodes as [|url rest IH]; intros boot bootV5; simpl.
  - split.
    + intros r [= <-]. exists []. by rewrite !app_nil_r.
    + split; [by intros [? ?]|]. intros (url & Hin & _).
      by apply elem_of_nil in Hin.
  - destruct (eNode url) as [n|why] eqn:He.
    + destruct (IH (boot ++ [n]) (bootV5 ++ [n])) as [IH1 IH2]. split.
      * intros r Hr. destruct (IH1 r Hr) as (ns & -> & Hf).
        exists (n :: ns). rewrite <- !app_assoc. split; [done|].
        by constructor.
      * rewrite IH2. split.
        -- intros (u & Hin & Hw). exists u. split; [by right|done].
        -- intros (u & Hin & w & Hw).
           apply elem_of_cons in Hin as [->|Hin]; [congruence|].
           exists u. split; [done|]. by exists w.
    + split; [done|]. split; [|by eexists].
      intros _. exists url. split; [by left|by eexists].
Qed.

End BootnodeExtras.

(** X17. [eNode] hands the parser only URLs that start with "enode://": two
    parsers that agree on those URLs give the same [eNode]. A URL without
    the scheme is treated like the same URL with the scheme in front. *)
Theorem eNode_adds_scheme (P Q : Enode) (url : string) :
  (∀ u, HasPrefix u "enode://" = true →
        @enode_Parse P u = @enode_Parse Q u) →
  @eNode P url = @eNode Q url ∧
  (HasPrefix url "enode://" = false →
     @eNode P url = @eNode P (String.append "enode://" url)).
Proof.
  intros Hagree. split.
  - unfold eNode. destruct (HasPrefix url "enode://") eqn:Hp; simpl.
    + by rewrite (Hagree _ Hp).
    + by rewrite (Hagree _ (HasPrefix_app "enode://" url)).
  - intros Hp. unfold eNode. rewrite Hp, (HasPrefix_app "enode://" url). done.
Qed.

(** * Properties of [LoadGenesis] *)

Lemma visitEpochRecord_cases (g : opera_Genesis) (v : genesisVars)
      (er : LlrIdxFullEpochRecord) :
  (consistentRecord g er ∧ ∃ v', visitEpochRecord g v er = Returned v') ∨
  (¬ consistentRecord g er ∧
   visitEpochRecord g v er = Panicked "network ID/name mismatch").
Proof.
  unfold visitEpochRecord, consistentRecord.
  destruct (Z.eqb_spec (rules_NetworkID (es_Rules (er_EpochState er)))
                       (g_NetworkID g)) as [Hn|Hn]; simpl.
  - destruct (String.eqb_spec (rules_Name (es_Rules (er_EpochState er)))
                              (g_NetworkName g)) as [Hs|Hs]; simpl.
    + left. split; [done|]. by eexists.
    + right. split; [by intros [_ ?]|done].
  - right. split; [by intros [? _]|done].
Qed.

Lemma forEachEpochRecord_outcome (g : opera_Genesis)
      (ers : list LlrIdxFullEpochRecord) :
  ∀ v,
    (Forall (consistentRecord g) ers ∧
     ∃ v', forEachEpochRecord g v ers = Returned v') ∨
    ((∃ er, er ∈ ers ∧ ¬ consistentRecord g er) ∧
     forEachEpochRecord g v ers = Panicked "network ID/name mismatch").
Proof.
  induction ers as [|er ers IH]; intros v; simpl.
  - left. split; [constructor|by eexists].
  - destruct (visitEpochRecord_cases g v er) as [[Hc [v1 ->]]|[Hc ->]].
    + destruct (IH v1) as [[Hall Hr]|[(er' & Hin & Hn) Hp]].
      * left. split; [by constructor|done].
      * right. split; [|done]. exists er'. split; [by right|done].
    + right. split; [|done]. exists er. split; [by left|done].
Qed.

Lemma forEachEpochRecord_first (g : opera_Genesis)
      (ers : list LlrIdxFullEpochRecord) :
  ∀ v v',
    forEachEpochRecord g v ers = Returned v' →
    firstES v' = match firstES v with
                 | Some f => Some f
                 | None => er_EpochState <$> head ers
                 end ∧
    firstBS v' = match firstBS v with
                 | Some f => Some f
                 | None => er_BlockState <$> head ers
                 end.
Proof.
  induction ers as [|er ers IH]; intros v v'; simpl.
  - intros [= <-]. by destruct (firstES v), (firstBS v).
  - destruct (visitEpochRecord g v er) as [v1|] eqn:Hv; [|done].
    intros Hf. destruct (IH _ _ Hf) as [-> ->].
    unfold visitEpochRecord in Hv. case_match; [done|].
    injection Hv as <-. simpl. by destruct (firstES v), (firstBS v).
Qed.

(** X19. [LoadGenesis] panics with "network ID/name mismatch" exactly when
    some epoch record disagrees with the genesis on the network identifier
    or name, with "no ERs in genesis" exactly when there is no epoch
    record, and returns in every other case. *)
Theorem LoadGenesis_outcome (b : ProbeBackend) (g : opera_Genesis) :
  (LoadGenesis b g = Panicked "network ID/name mismatch" ↔
     ∃ er, er ∈ g_Epochs g ∧ ¬ consistentRecord g er) ∧
  (LoadGenesis b g = Panicked "no ERs in genesis" ↔ g_Epochs g = []) ∧
  ((∃ r, LoadGenesis b g = Returned r) ↔
     g_Epochs g ≠ [] ∧ Forall (consistentRecord g) (g_Epochs g)).
Proof.
  unfold LoadGenesis.
  destruct (forEachEpochRecord_outcome g (g_Epochs g)
              (mkGenesisVars [] None None None))
    as [[Hall [v Hv]]|[(er & Hin & Hn) Hp]].
  - rewrite Hv. destruct (forEachEpochRecord_first _ _ _ _ Hv) as [-> ->].
    simpl. destruct (g_Epochs g) as [|er ers] eqn:He; simpl.
    + split_and!; split; try done.
      * intros (er & Hin & _). by apply elem_of_nil in Hin.
      * by intros [? ?].
      * by intros [? _].
    + split_and!; split; try done.
      * intros (er' & Hin & Hn). rewrite Forall_forall in Hall.
        destruct Hn. by apply Hall.
      * intros _. by eexists.
  - rewrite Hp. split_and!; split; try done.
    + intros _. by exists er.
    + intros He. rewrite He in Hin. by apply elem_of_nil in Hin.
    + by intros [? ?].
    + intros [_ Hall]. rewrite Forall_forall in Hall.
      destruct Hn. by apply Hall.
Qed.

(** X20. When [LoadGenesis] returns, the progress and the node info of the
    backend come from the first record visited and from the genesis: epoch,
    last block index and atropos of that record, network identifier and
    genesis hash of the genesis. The rules it keeps are those of the first
    record and are rules of the very network of the handshake. Registry,
    output, wait group and quit channel of the backend are untouched. *)
Theorem LoadGenesis_first_record (b b' : ProbeBackend) (g : opera_Genesis)
        (er : LlrIdxFullEpochRecord) (rest : list LlrIdxFullEpochRecord)
        (setup : chainSetup) :
  g_Epochs g = er :: rest →
  LoadGenesis b g = Returned (b', setup) →
  Progress b'
  = mkPeerProgress (es_Epoch (er_EpochState er))
                   (Idx (LastBlock (er_BlockState er)))
                   (Atropos (LastBlock (er_BlockState er))) ∧
  Info b' = mkNodeInfo (g_NetworkID g) (g_GenesisID g) ∧
  Opera setup = es_Rules (er_EpochState er) ∧
  rules_NetworkID (Opera setup) = Network (Info b') ∧
  info_Epoch setup = Epoch (Progress b') ∧
  info_NumOfBlocks setup = LastBlockIdx (Progress b') ∧
  peers b' = peers b ∧ output b' = output b ∧
  wg b' = wg b ∧ quitSync b' = quitSync b.
Proof.
  intros He Hl.
  assert (consistentRecord g er) as [Hn _].
  { destruct (LoadGenesis_outcome b g) as (_ & _ & [Hr _]).
    destruct Hr as [_ Hall]; [by eexists|].
    rewrite He in Hall. by inversion Hall. }
  unfold LoadGenesis in Hl.
  destruct (forEachEpochRecord g _ (g_Epochs g)) as [v|] eqn:Hv; [|done].
  destruct (forEachEpochRecord_first _ _ _ _ Hv) as [Hfe Hfb].
  rewrite He in Hfe, Hfb. simpl in Hfe, Hfb. rewrite Hfe, Hfb in Hl.
  injection Hl as <- <-. simpl. by split_and!.
Qed.

Lemma adjacentDiffer_snoc (l : list UpgradeHeight) (x : UpgradeHeight) :
  adjacentDiffer l →
  (∀ h, last l = Some h → uh_Upgrades h ≠ uh_Upgrades x) →
  adjacentDiffer (l ++ [x]).
Proof.
  intros Hl Hx i a c Ha Hc.
  assert (S i < length (l ++ [x]))%nat as Hlen by (by eapply lookup_lt_Some).
  rewrite length_app in Hlen. simpl in Hlen.
  rewrite lookup_app_l in Ha by lia.
  destruct (decide (S i < length l)%nat) as [Hlt|Hge].
  - rewrite lookup_app_l in Hc by done. by eapply Hl.
  - assert (S i = length l) as Hi by lia.
    rewrite lookup_app_r, Hi, Nat.sub_diag in Hc by lia.
    injection Hc as <-. apply Hx. rewrite last_lookup, <- Hi. done.
Qed.

Lemma visitEpochRecord_heights (g : opera_Genesis) (v v' : genesisVars)
      (er : LlrIdxFullEpochRecord) :
  visitEpochRecord g v er = Returned v' →
  heightsTrack v →
  heightsTrack v' ∧
  lastES v' = Some (er_EpochState er) ∧
  (hh v' = hh v ∨ hh v' = hh v ++ [upgradeHeightOf er]) ∧
  (lastES v = None → hh v' = [upgradeHeightOf er]).
Proof.
  unfold visitEpochRecord, heightsTrack. case_match; [done|].
  intros [= <-] [Hadj Hlast]. simpl.
  destruct (lastES v) as [l|] eqn:Hl.
  - destruct Hlast as (h & Hh & Hup). case_bool_decide as Hne.
    + split_and!; [| |done|by right|done].
      * apply adjacentDiffer_snoc; [done|]. intros h' Hh'.
        rewrite Hh in Hh'. injection Hh' as <-. rewrite Hup. by intros ?.
      * eexists. by rewrite last_snoc.
    + split_and!; [done| |done|by left|done].
      exists h. split; [done|]. rewrite Hup.
      destruct (decide (rules_Upgrades (es_Rules (er_EpochState er))
                        = rules_Upgrades (es_Rules l))); [done|].
      by destruct Hne.
  - rewrite Hlast. simpl. split_and!; [| |done|by right|done].
    + intros i a c Ha Hc. by destruct i.
    + by eexists.
Qed.

Lemma forEachEpochRecord_heights (g : opera_Genesis)
      (ers : list LlrIdxFullEpochRecord) :
  ∀ v v',
    forEachEpochRecord g v ers = Returned v' →
    heightsTrack v →
    heightsTrack v' ∧
    (∃ extra,
       hh v' = hh v ++ extra ∧ (length extra <= length ers)%nat ∧
       (∀ h, h ∈ extra → ∃ er, er ∈ ers ∧ h = upgradeHeightOf er) ∧
       (lastES v = None → head extra = upgradeHeightOf <$> head ers)) ∧
    (ers ≠ [] → lastES v' = er_EpochState <$> last ers).
Proof.
  induction ers as [|er ers IH]; intros v v'; simpl.
  - intros [= <-] Hv. split_and!; [done| |done].
    exists []. rewrite app_nil_r. split_and!; [done..| |done].
    intros h Hh. by apply elem_of_nil in Hh.
  - destruct (visitEpochRecord g v er) as [v1|] eqn:Hv1; [|done].
    intros Hf Hv.
    destruct (visitEpochRecord_heights _ _ _ _ Hv1 Hv)
      as (Hv1t & Hlast1 & Hhh1 & Hnone1).
    destruct (IH _ _ Hf Hv1t)
      as (Hv't & (extra & Hhh & Hlen & Hfrom & _) & Hlast').
    split_and!; [done| |].
    + destruct Hhh1 as [Heq|Heq].
      * exists extra. rewrite Hhh, Heq. split_and!; [done|lia| |].
        -- intros h Hh. destruct (Hfrom h Hh) as (er' & Hin & ->).
           exists er'. split; [by right|done].
        -- intros Hn. specialize (Hnone1 Hn). rewrite Hnone1 in Heq.
           unfold heightsTrack in Hv. rewrite Hn in Hv.
           destruct Hv as [_ Hnil]. by rewrite Hnil in Heq.
      * exists (upgradeHeightOf er :: extra). rewrite Hhh, Heq, <- app_assoc.
        split_and!; [done|simpl; lia| |done].
        intros h Hh. apply elem_of_cons in Hh as [->|Hh].
        -- exists er. split; [by left|done].
        -- destruct (Hfrom h Hh) as (er' & Hin & ->).
           exists er'. split; [by right|done].
    + intros _. destruct ers as [|er2 ers2]; [|by apply Hlast'].
      simpl in Hf. by injection Hf as <-.
Qed.

(** X21. The upgrade heights that [LoadGenesis] hands to [EvmChainConfig]:
    the list is not empty and starts with the height of the first record
    visited; no two neighbours carry the same upgrades, and the last one
    carries the upgrades of the record visited last; every entry is the
    height of one of the records, last block index plus one, and there are
    at most as many entries as records. *)
Theorem LoadGenesis_upgrade_heights (b b' : ProbeBackend) (g : opera_Genesis)
        (setup : chainSetup) :
  LoadGenesis b g = Returned (b', setup) →
  head (upgradeHeights setup) = upgradeHeightOf <$> head (g_Epochs g) ∧
  upgradeHeights setup ≠ [] ∧
  adjacentDiffer (upgradeHeights setup) ∧
  (uh_Upgrades <$> last (upgradeHeights setup)) =
    ((fun er => rules_Upgrades (es_Rules (er_EpochState er)))
       <$> last (g_Epochs g)) ∧
  (∀ h, h ∈ upgradeHeights setup →
        ∃ er, er ∈ g_Epochs g ∧ h = upgradeHeightOf er) ∧
  (length (upgradeHeights setup) <= length (g_Epochs g))%nat.
Proof.
  intros Hl.
  assert (g_Epochs g ≠ []) as Hne.
  { destruct (LoadGenesis_outcome b g) as (_ & _ & [Hr _]).
    apply Hr. by eexists. }
  unfold LoadGenesis in Hl.
  destruct (forEachEpochRecord g _ (g_Epochs g)) as [v|] eqn:Hv; [|done].
  destruct (firstES v), (firstBS v); try done. injection Hl as <- <-. simpl.
  destruct (forEachEpochRecord_heights _ _ _ _ Hv)
    as ([Hadj Hlast] & (extra & Hhh & Hlen & Hfrom & Hhead) & Hl').
  { split; [|done]. intros i a c Ha. simpl in Ha. by destruct i. }
  simpl in Hhh. rewrite Hhh in *. specialize (Hhead eq_refl).
  specialize (Hl' Hne). rewrite Hl' in Hlast.
  destruct (last (g_Epochs g)) as [erl|] eqn:Hle;
    [|by apply last_None in Hle].
  simpl in Hlast.
  destruct Hlast as (h & Hh & Hup).
  split_and!; try done.
  - intros Hnil. by rewrite Hnil in Hh.
  - rewrite Hh. simpl. by rewrite Hup.
Qed.

(** * The statements at the sample data *)

(** Scenarios A and B of the spec: a progress message of epoch 6 whose
    last-block hash is of epoch 5 classifies the peer Evil, one of epoch 6
    classifies it Useless; one record is sent in both. *)
Example scenario_A :
  let '(b, p, _, ret) :=
    handle sampleBackend operaPeer [inr statusMsg; inr evilProgressMsg] in
  Status p = PeerEvil ∧ length (output b) = 1%nat ∧ ret = None.
Proof. vm_compute. by split_and!. Qed.

Example scenario_B :
  let '(b, p, _, ret) :=
    handle sampleBackend operaPeer [inr statusMsg; inr honestProgressMsg] in
  Status p = PeerUseless ∧ length (output b) = 1%nat ∧ ret = None.
Proof. vm_compute. by split_and!. Qed.

(** C1: 25 results, then stop, on the sample crawler. *)
Lemma callbacks_for_25_results_witness :
  length sampleResults = 25%nat ∧
  length (ag_calls (processNewNodes sampleInput
                      ((RecvNode <$> sampleResults) ++ [RecvDone])
                      sampleStore)) = 26%nat.
Proof.
  split; [reflexivity|].
  refine (proj1 (callbacks_for_25_results sampleCrawler
            (mkCrawler (mkServer true [sampleNode] [sampleNode] None)
                       sampleBackend chanOpen)
            sampleInput sampleStore sampleResults _ _ _)).
  - reflexivity.
  - vm_compute. reflexivity.
Defined.

(** C2: the sample crawler, stopped twice. *)
Lemma second_stop_panics :
  ∃ c1 b1,
    Stop sampleCrawler = Returned c1 ∧
    Stop c1 = Panicked "close of closed channel" ∧
    Close sampleBackend = Returned b1 ∧
    Close b1 = Panicked "close of closed channel".
Proof. by eexists _, _. Qed.

Lemma stop_is_one_shot_witness :
  (quitSync (backend sampleCrawler) = chanOpen ∧
   done sampleCrawler = chanOpen) ∧
  ∃ ag0,
    Start sampleCrawler sampleInput (RecvNode <$> sampleResults) sampleStore
    = Returned (mkCrawler (mkServer true [sampleNode] [sampleNode] None)
                          sampleBackend chanOpen, ag0) ∧
    ag_returned ag0 = false ∧
    ag_returned (processNewNodes sampleInput
                   ((RecvNode <$> sampleResults) ++ [RecvDone; RecvDone])
                   sampleStore) = true ∧
    ag_store (processNewNodes sampleInput
                ((RecvNode <$> sampleResults) ++ [RecvDone; RecvDone])
                sampleStore) = ag_store ag0 ∧
    ag_calls (processNewNodes sampleInput
                ((RecvNode <$> sampleResults) ++ [RecvDone; RecvDone])
                sampleStore)
    = ag_calls ag0 ++ [deref (ag_store ag0) (ag_output ag0)].
Proof.
  split; [split; reflexivity|].
  refine (proj2 (stop_is_one_shot sampleCrawler
                   (mkCrawler (mkServer true [sampleNode] [sampleNode] None)
                              sampleBackend chanOpen)
                   sampleInput sampleStore sampleResults [RecvDone]
                   (processNewNodes sampleInput
                      ((RecvNode <$> sampleResults) ++ [RecvDone; RecvDone])
                      sampleStore)
                   eq_refl eq_refl _)).
  vm_compute. reflexivity.
Defined.

(** C3: a peer of another client that is not on the ban list, and an opera
    peer that is, are both turned away with nothing read; under the claim
    each of them lacks one of the three conditions and would be handled. *)
Lemma useless_without_all_three :
  (Banned gethPeer = false ∧
   handle sampleBackend gethPeer [inr statusMsg; inr honestProgressMsg]
   = (sampleBackend, Disconnect DiscUselessPeer gethPeer,
      [inr statusMsg; inr honestProgressMsg],
      Some (errDisc DiscUselessPeer))) ∧
  (Contains (ToLower (Name bannedOperaPeer)) "opera" = true ∧
   handle sampleBackend bannedOperaPeer [inr statusMsg; inr honestProgressMsg]
   = (sampleBackend, Disconnect DiscUselessPeer bannedOperaPeer,
      [inr statusMsg; inr honestProgressMsg],
      Some (errDisc DiscUselessPeer))).
Proof. by split_and!. Qed.

Lemma useless_gate_witness :
  uselessPeer gethPeer = true ∧
  handle sampleBackend gethPeer [inr statusMsg]
  = (sampleBackend, Disconnect DiscUselessPeer gethPeer, [inr statusMsg],
     Some (errDisc DiscUselessPeer)).
Proof.
  split; [reflexivity|].
  apply (useless_gate sampleBackend gethPeer [inr statusMsg]). reflexivity.
Defined.

(** C4: the progress message of scenario A. *)
Lemma progress_update_classifies_witness :
  (Code evilProgressMsg = ProgressMsg ∧
   Size evilProgressMsg <= protocolMaxMsgSize ∧
   Decode_PeerProgress evilProgressMsg
   = Some (mkPeerProgress 6 41 ["000"; "000"; "000"; "005"; "170"]%byte)) ∧
  ∃ p',
    handleMsg sampleBackend operaPeer [inr evilProgressMsg] = (p', [], None) ∧
    Epoch (progress p') = 6 ∧ Status p' = PeerEvil.
Proof.
  split; [split_and!; [reflexivity | by vm_compute | reflexivity]|].
  destruct (progress_update_classifies sampleBackend operaPeer evilProgressMsg
              [] (mkPeerProgress 6 41 ["000"; "000"; "000"; "005"; "170"]%byte))
    as (p' & Hm & Hg & He & _).
  - reflexivity.
  - by vm_compute.
  - reflexivity.
  - exists p'. split_and!; [done|by rewrite Hg|]. apply He. by vm_compute.
Defined.

(** C5: a session that is classified by its third message, with one more
    message pending. *)
Lemma one_record_per_session_witness :
  terminal (Status operaPeer) = false ∧
  let '(b', p', s', ret) :=
    handle sampleBackend operaPeer
           [inr statusMsg; inr txsMsg; inr evilProgressMsg; inr txsMsg] in
  (output b' = output sampleBackend ++ [probeResult p'] ↔
     terminal (Status p') = true) ∧
  length (output b') = 1%nat ∧ s' = [inr txsMsg].
Proof.
  split; [reflexivity|].
  destruct (handle sampleBackend operaPeer
              [inr statusMsg; inr txsMsg; inr evilProgressMsg; inr txsMsg])
    as [[[b' p'] s'] ret] eqn:Hh.
  destruct (one_record_per_session sampleBackend b' operaPeer p' _ s' ret
              eq_refl Hh) as (_ & Hiff & _ & _).
  split; [exact Hiff|]. vm_compute in Hh. by injection Hh as <- <- <- <-.
Defined.

(** C6: after the handshake, a status message announced above the size
    limit is answered with [ErrMsgTooLarge], not with [ErrExtraStatusMsg]. *)
Lemma oversized_extra_status :
  Code (oversized statusMsg) = HandshakeMsg ∧
  Handshake (Network (Info sampleBackend)) (Progress sampleBackend)
            (Genesis (Info sampleBackend)) operaPeer
            [inr statusMsg; inr (oversized statusMsg)]
  = ([inr (oversized statusMsg)], None) ∧
  handle sampleBackend operaPeer [inr statusMsg; inr (oversized statusMsg)]
  = (sampleBackend, Disconnect DiscUselessPeer operaPeer, [],
     Some (errResp ErrMsgTooLarge)) ∧
  errResp ErrMsgTooLarge ≠ errResp ErrExtraStatusMsg.
Proof.
  split_and!; [reflexivity | vm_compute; reflexivity
              | vm_compute; reflexivity | discriminate].
Qed.

Lemma extra_status_tears_down_witness :
  (uselessPeer operaPeer = false ∧
   quiet sampleBackend operaPeer [inr txsMsg] = Some operaPeer ∧
   Code statusMsg = HandshakeMsg ∧
   Size statusMsg <= protocolMaxMsgSize) ∧
  handle sampleBackend operaPeer
         [inr statusMsg; inr txsMsg; inr statusMsg; inr evilProgressMsg]
  = (sampleBackend, Disconnect DiscUselessPeer operaPeer,
     [inr evilProgressMsg], Some (errResp ErrExtraStatusMsg)).
Proof.
  split.
  - split_and!; [vm_compute; reflexivity | vm_compute; reflexivity
                | reflexivity | by vm_compute].
  - refine (proj2 (extra_status_tears_down sampleBackend operaPeer operaPeer
                     [inr statusMsg; inr txsMsg; inr statusMsg;
                      inr evilProgressMsg]
                     [inr txsMsg; inr statusMsg; inr evilProgressMsg]
                     [inr txsMsg] [inr evilProgressMsg] statusMsg
                     _ _ _ _ _ _ _)).
    + vm_compute; reflexivity.
    + vm_compute; reflexivity.
    + apply not_elem_of_empty.
    + reflexivity.
    + vm_compute; reflexivity.
    + reflexivity.
    + by vm_compute.
Defined.

(** C7: an events stream response that holds events only but is announced
    above the size limit is rejected; the session is not classified. *)
Lemma oversized_events_chunk :
  Code (oversized eventsChunkMsg) = EventsStreamResponse ∧
  Decode_dagChunk (oversized eventsChunkMsg)
  = Some (mkDagChunk [] [["017"%byte]; ["018"%byte]]) ∧
  handleMsg sampleBackend operaPeer [inr (oversized eventsChunkMsg)]
  = (operaPeer, [], Some (errResp ErrMsgTooLarge)) ∧
  Status operaPeer ≠ PeerUseless.
Proof.
  split_and!; [reflexivity | vm_compute; reflexivity
              | vm_compute; reflexivity | discriminate].
Qed.

Lemma stream_chunk_contents_witness :
  (uselessPeer operaPeer = false ∧
   Decode_dagChunk mixedChunkMsg
   = Some (mkDagChunk [["017"%byte]] [["018"%byte]]) ∧
   Decode_dagChunk eventsChunkMsg
   = Some (mkDagChunk [] [["017"%byte]; ["018"%byte]]) ∧
   Size eventsChunkMsg <= protocolMaxMsgSize) ∧
  (∃ e, handle sampleBackend operaPeer [inr statusMsg; inr mixedChunkMsg]
        = (sampleBackend, Disconnect DiscUselessPeer operaPeer, [], Some e)) ∧
  handleMsg sampleBackend operaPeer [inr eventsChunkMsg]
  = (set_Status PeerUseless operaPeer, [], None).
Proof.
  split; [|split].
  - split_and!; [vm_compute; reflexivity | vm_compute; reflexivity
                | vm_compute; reflexivity | by vm_compute].
  - destruct (proj1 (stream_chunk_contents sampleBackend operaPeer operaPeer
                       [inr statusMsg; inr mixedChunkMsg] [inr mixedChunkMsg]
                       [] [] mixedChunkMsg
                       (mkDagChunk [["017"%byte]] [["018"%byte]])
                       ltac:(vm_compute; reflexivity)
                       ltac:(vm_compute; reflexivity)
                       ltac:(apply not_elem_of_empty)
                       eq_refl eq_refl eq_refl
                       ltac:(vm_compute; reflexivity)))
      as (e & _ & Hh & _).
    + left. split; discriminate.
    + by exists e.
  - refine (proj2 (stream_chunk_contents sampleBackend operaPeer operaPeer
                     [inr statusMsg; inr eventsChunkMsg] [inr eventsChunkMsg]
                     [] [] eventsChunkMsg
                     (mkDagChunk [] [["017"%byte]; ["018"%byte]])
                     ltac:(vm_compute; reflexivity)
                     ltac:(vm_compute; reflexivity)
                     ltac:(apply not_elem_of_empty)
                     eq_refl eq_refl eq_refl
                     ltac:(vm_compute; reflexivity)) _ _ _).
    + discriminate.
    + reflexivity.
    + by vm_compute.
Defined.


(** C9: the error on a second status message. *)
Lemma handleMsg_error_keeps_state_witness :
  handleMsg sampleBackend operaPeer [inr statusMsg; inr txsMsg]
  = (operaPeer, [inr txsMsg], Some (errResp ErrExtraStatusMsg)) ∧
  Status operaPeer = Status operaPeer ∧ progress operaPeer = progress operaPeer.
Proof.
  assert (handleMsg sampleBackend operaPeer [inr statusMsg; inr txsMsg]
          = (operaPeer, [inr txsMsg], Some (errResp ErrExtraStatusMsg))) as Hm
    by (vm_compute; reflexivity).
  split; [exact Hm|].
  exact (handleMsg_error_keeps_state sampleBackend operaPeer operaPeer
           [inr statusMsg; inr txsMsg] [inr txsMsg]
           (errResp ErrExtraStatusMsg) Hm).
Defined.

(** C10: the caller's map at location 1 after 25 results and the stop. *)
Lemma Start_keeps_input_witness :
  sampleStore !! sampleInput = Some {[ 7%N := mkNodeJSON sampleNode None ]} ∧
  ag_store (processNewNodes sampleInput
              ((RecvNode <$> sampleResults) ++ [RecvDone]) sampleStore)
    !! sampleInput
  = Some {[ 7%N := mkNodeJSON sampleNode None ]}.
Proof.
  assert (sampleStore !! sampleInput
          = Some {[ 7%N := mkNodeJSON sampleNode None ]}) as Hm
    by (vm_compute; reflexivity).
  split; [exact Hm|].
  refine (proj1 (proj2 (proj2 (proj2
            (Start_keeps_input sampleCrawler
               (mkCrawler (mkServer true [sampleNode] [sampleNode] None)
                          sampleBackend chanOpen)
               sampleInput sampleStore _
               ((RecvNode <$> sampleResults) ++ [RecvDone]) _ Hm _))))).
  vm_compute. reflexivity.
Defined.

(** ** The further properties at the sample data *)

Lemma unknown_code_rejected_witness :
  Size unknownMsg <= protocolMaxMsgSize ∧
  (handleMsg sampleBackend operaPeer [inr unknownMsg]).2
  = Some (errResp ErrInvalidMsgCode).
Proof.
  split; [by vm_compute|].
  apply (unknown_code_rejected sampleBackend operaPeer unknownMsg []);
    [by vm_compute|right; by vm_compute].
Defined.

Lemma advertised_codes_are_known_witness :
  (mkProtocol "opera" 62 10 ∈ ProbeProtocols [FTM62; FTM63] ∧
   Size eventsChunkMsg <= protocolMaxMsgSize ∧
   0 <= Code eventsChunkMsg < 10) ∧
  (handleMsg sampleBackend operaPeer [inr eventsChunkMsg]).2
  ≠ Some (errResp ErrInvalidMsgCode).
Proof.
  assert (mkProtocol "opera" 62 10 ∈ ProbeProtocols [FTM62; FTM63]) as Hin.
  { apply list_elem_of_fmap. exists FTM62. split; [vm_compute; reflexivity|].
    left. }
  split; [split_and!; [exact Hin|by vm_compute..]|].
  apply (advertised_codes_are_known sampleBackend operaPeer eventsChunkMsg []
           [FTM62; FTM63] (mkProtocol "opera" 62 10) Hin);
    [by vm_compute|split; by vm_compute].
Defined.

Lemma observed_only_messages_witness :
  Size txsMsg <= protocolMaxMsgSize ∧
  handleMsg sampleBackend operaPeer [inr txsMsg] = (operaPeer, [], None).
Proof.
  split; [by vm_compute|].
  apply (observed_only_messages sampleBackend operaPeer txsMsg []);
    [left|by vm_compute].
Defined.

Lemma list_message_accepted_witness :
  (Size oneEventMsg <= protocolMaxMsgSize ∧
   decodedItems oneEventMsg = Some 1) ∧
  handleMsg sampleBackend operaPeer [inr oneEventMsg] = (operaPeer, [], None).
Proof.
  split; [split; [by vm_compute|vm_compute; reflexivity]|].
  destruct (list_message_accepted sampleBackend operaPeer oneEventMsg [] 1)
    as (r & Hm & Hr); [by vm_compute|vm_compute; reflexivity|].
  rewrite Hm. f_equal. apply Hr. split; by vm_compute.
Defined.

Lemma undecodable_payload_witness :
  (Size brokenProgressMsg <= protocolMaxMsgSize ∧
   Code brokenProgressMsg = ProgressMsg ∧
   Decode_PeerProgress brokenProgressMsg = None) ∧
  handleMsg sampleBackend operaPeer [inr brokenProgressMsg]
  = (operaPeer, [], Some (errResp ErrDecode)).
Proof.
  split; [split_and!; [by vm_compute|reflexivity|reflexivity]|].
  apply (undecodable_payload sampleBackend operaPeer brokenProgressMsg []);
    [by vm_compute|left; split; reflexivity].
Defined.

Lemma identifiers_only_chunk_witness :
  (Size idsChunkMsg <= protocolMaxMsgSize ∧
   Decode_dagChunk idsChunkMsg = Some (mkDagChunk [["017"%byte]] [])) ∧
  handleMsg sampleBackend operaPeer [inr idsChunkMsg] = (operaPeer, [], None).
Proof.
  split; [split; [by vm_compute|vm_compute; reflexivity]|].
  apply (identifiers_only_chunk sampleBackend operaPeer idsChunkMsg []
           (mkDagChunk [["017"%byte]] []));
    [by vm_compute|reflexivity|vm_compute; reflexivity|reflexivity
    |discriminate].
Defined.

Lemma handleMsg_errors_witness :
  handleMsg sampleBackend operaPeer [inr statusMsg]
  = (operaPeer, [], Some (errResp ErrExtraStatusMsg)) ∧
  ((([inr statusMsg] : stream) = [] ∧ errResp ErrExtraStatusMsg = io_EOF) ∨
   (∃ rest : stream, [inr statusMsg] = inl (errResp ErrExtraStatusMsg) :: rest) ∨
   errResp ErrExtraStatusMsg
   ∈ [errResp ErrExtraStatusMsg; errResp ErrDecode; errResp ErrEmptyMessage;
      errResp ErrMsgTooLarge;
      errorsNew "expected either events or event hashes";
      errResp ErrInvalidMsgCode]).
Proof.
  assert (handleMsg sampleBackend operaPeer [inr statusMsg]
          = (operaPeer, [], Some (errResp ErrExtraStatusMsg))) as Hm
    by (vm_compute; reflexivity).
  split; [exact Hm|].
  exact (handleMsg_errors sampleBackend operaPeer operaPeer [inr statusMsg] []
           (errResp ErrExtraStatusMsg) Hm).
Defined.

Lemma handleMsg_changes_witness :
  handleMsg sampleBackend operaPeer [inr evilProgressMsg]
  = (set_Status PeerEvil
       (set_progress
          (mkPeerProgress 6 41 ["000"; "000"; "000"; "005"; "170"]%byte)
          operaPeer), [], None) ∧
  sameConnection operaPeer
    (set_Status PeerEvil
       (set_progress
          (mkPeerProgress 6 41 ["000"; "000"; "000"; "005"; "170"]%byte)
          operaPeer)).
Proof.
  assert (handleMsg sampleBackend operaPeer [inr evilProgressMsg]
          = (set_Status PeerEvil
               (set_progress
                  (mkPeerProgress 6 41 ["000"; "000"; "000"; "005"; "170"]%byte)
                  operaPeer), [], None)) as Hm
    by (vm_compute; reflexivity).
  split; [exact Hm|].
  exact (proj2 (proj2 (handleMsg_changes sampleBackend operaPeer _ _ _ _ Hm))).
Defined.

Lemma handle_cleans_up_witness :
  let '(b', p', _, _) :=
    handle sampleBackend operaPeer
           [inr statusMsg; inr txsMsg; inr evilProgressMsg; inr txsMsg] in
  peers b' = peers sampleBackend ∧ disconnected p' = Some DiscUselessPeer.
Proof.
  destruct (handle sampleBackend operaPeer
              [inr statusMsg; inr txsMsg; inr evilProgressMsg; inr txsMsg])
    as [[[b' p'] s'] ret] eqn:Hh.
  destruct (handle_cleans_up sampleBackend b' operaPeer p' _ s' ret Hh)
    as (Hp & _ & _ & _ & _ & Hd & _).
  by split.
Defined.

Lemma closed_backend_turns_sessions_away_witness :
  Close sampleBackend
  = Returned (set_wg 0%nat (set_quitSync chanClosed sampleBackend)) ∧
  Run (set_wg 0%nat (set_quitSync chanClosed sampleBackend)) operaPeer
      [inr statusMsg; inr evilProgressMsg]
  = (set_wg 0%nat (set_quitSync chanClosed sampleBackend), operaPeer,
     [inr statusMsg; inr evilProgressMsg], Some (errDisc DiscQuitting)).
Proof.
  split; [reflexivity|].
  apply (closed_backend_turns_sessions_away sampleBackend _ operaPeer
           [inr statusMsg; inr evilProgressMsg]).
  reflexivity.
Defined.

Lemma Run_leaves_wait_group_witness :
  quitSync sampleBackend = chanOpen ∧
  let '(b', _, _, _) :=
    Run sampleBackend operaPeer [inr statusMsg; inr evilProgressMsg] in
  wg b' = wg sampleBackend ∧ peers b' = peers sampleBackend.
Proof.
  split; [reflexivity|].
  destruct (Run sampleBackend operaPeer [inr statusMsg; inr evilProgressMsg])
    as [[[b' p'] s'] ret] eqn:Hr.
  destruct (Run_leaves_wait_group sampleBackend b' operaPeer p' _ s' ret
              eq_refl Hr) as (_ & Hw & Hp & _).
  by split.
Defined.

Lemma name_test_ignores_case_witness :
  (Name shoutingPeer = String.append "Go-" (String.append "OPERA" "/v1.1.3") ∧
   ToLower "OPERA" = "opera" ∧ Banned shoutingPeer = false) ∧
  uselessPeer shoutingPeer = false.
Proof.
  split; [split_and!; reflexivity|].
  apply (name_test_ignores_case shoutingPeer "Go-" "OPERA" "/v1.1.3");
    reflexivity.
Defined.

Lemma progress_message_publishes_witness :
  (uselessPeer operaPeer = false ∧
   quiet sampleBackend operaPeer [inr txsMsg] = Some operaPeer ∧
   Size honestProgressMsg <= protocolMaxMsgSize) ∧
  ∃ p',
    handle sampleBackend operaPeer
           [inr statusMsg; inr txsMsg; inr honestProgressMsg; inr txsMsg]
    = (send_output (mkNodeJSON sampleNode (Some (mkClientInfo "41")))
                   sampleBackend, p', [inr txsMsg], None) ∧
    Status p' = PeerUseless.
Proof.
  split.
  - split_and!; [vm_compute; reflexivity | vm_compute; reflexivity
                | by vm_compute].
  - destruct (progress_message_publishes sampleBackend operaPeer operaPeer
                [inr statusMsg; inr txsMsg; inr honestProgressMsg; inr txsMsg]
                [inr txsMsg; inr honestProgressMsg; inr txsMsg]
                [inr txsMsg] [inr txsMsg] honestProgressMsg
                (mkPeerProgress 6 41 ["000"; "000"; "000"; "006"; "170"]%byte))
      as (p' & Hh & _ & Hs).
    + vm_compute; reflexivity.
    + vm_compute; reflexivity.
    + apply not_elem_of_empty.
    + reflexivity.
    + vm_compute; reflexivity.
    + reflexivity.
    + by vm_compute.
    + vm_compute; reflexivity.
    + exists p'. split; [exact Hh|exact Hs].
Defined.

Lemma results_merged_in_order_witness :
  sampleStore !! sampleInput = Some {[ 7%N := mkNodeJSON sampleNode None ]} ∧
  let ag := processNewNodes sampleInput
              ((RecvNode <$> take 2 sampleResults) ++ [RecvDone]) sampleStore in
  ag_store ag !! ag_output ag
  = Some (merged {[ 7%N := mkNodeJSON sampleNode None ]}
                 (take 2 sampleResults)) ∧
  last (ag_calls ag)
  = Some (merged {[ 7%N := mkNodeJSON sampleNode None ]}
                 (take 2 sampleResults)).
Proof.
  assert (sampleStore !! sampleInput
          = Some {[ 7%N := mkNodeJSON sampleNode None ]}) as Hm
    by (vm_compute; reflexivity).
  split; [exact Hm|].
  destruct (results_merged_in_order sampleCrawler
              (mkCrawler (mkServer true [sampleNode] [sampleNode] None)
                         sampleBackend chanOpen)
              sampleInput sampleStore _ (take 2 sampleResults) []
              (processNewNodes sampleInput
                 ((RecvNode <$> take 2 sampleResults) ++ [RecvDone])
                 sampleStore) Hm)
    as (Hs & Hc & _).
  - vm_compute. reflexivity.
  - split; [exact Hs|exact Hc].
Defined.

Lemma Start_seeds_bootstrap_witness :
  sampleStore !! sampleInput = Some {[ 7%N := mkNodeJSON sampleNode None ]} ∧
  ∃ known,
    BootstrapNodes (mkServer true [sampleNode] [sampleNode] None)
    = BootstrapNodes (server sampleCrawler) ++ known ∧
    length known = 1%nat.
Proof.
  assert (sampleStore !! sampleInput
          = Some {[ 7%N := mkNodeJSON sampleNode None ]}) as Hm
    by (vm_compute; reflexivity).
  split; [exact Hm|].
  destruct (Start_seeds_bootstrap sampleCrawler
              (mkCrawler (mkServer true [sampleNode] [sampleNode] None)
                         sampleBackend chanOpen)
              sampleInput sampleStore _ [RecvDone]
              (processNewNodes sampleInput [RecvDone] sampleStore) Hm)
    as (known & Hb & _ & Hl & _).
  - vm_compute. reflexivity.
  - exists known. split; [exact Hb|]. rewrite Hl. vm_compute. reflexivity.
Defined.

(** Scenario E of the spec: the URL without the scheme. *)
Lemma eNode_adds_scheme_witness :
  HasPrefix "abc@1.2.3.4:30303" "enode://" = false ∧
  eNode "abc@1.2.3.4:30303" = eNode "enode://abc@1.2.3.4:30303" ∧
  eNode "abc@1.2.3.4:30303"
  = Returned (mkNode 25 "enode://abc@1.2.3.4:30303").
Proof.
  split; [reflexivity|]. split; [|reflexivity].
  apply (eNode_adds_scheme sampleEnode sampleEnode "abc@1.2.3.4:30303");
    [reflexivity|reflexivity].
Defined.

Lemma LoadGenesis_first_record_witness :
  ∃ b' setup,
    LoadGenesis sampleBackend sampleChain = Returned (b', setup) ∧
    Progress b' = mkPeerProgress 5 40 ["000"; "000"; "000"; "005"]%byte ∧
    Info b' = mkNodeInfo 250 sampleGenesis ∧
    rules_NetworkID (Opera setup) = Network (Info b').
Proof.
  destruct (LoadGenesis sampleBackend sampleChain) as [[b' setup]|why] eqn:Hl;
    [|vm_compute in Hl; discriminate].
  exists b', setup. split; [reflexivity|].
  destruct (LoadGenesis_first_record sampleBackend b' sampleChain
              (sampleRecord 5 40 (mkUpgrades true false false)) _ setup
              eq_refl Hl) as (Hp & Hi & _ & Hn & _).
  by split_and!.
Defined.

Lemma LoadGenesis_upgrade_heights_witness :
  ∃ b' setup,
    LoadGenesis sampleBackend sampleChain = Returned (b', setup) ∧
    upgradeHeights setup
    = [mkUpgradeHeight (mkUpgrades true false false) 41;
       mkUpgradeHeight (mkUpgrades true true false) 131] ∧
    adjacentDiffer (upgradeHeights setup).
Proof.
  destruct (LoadGenesis sampleBackend sampleChain) as [[b' setup]|why] eqn:Hl;
    [|vm_compute in Hl; discriminate].
  exists b', setup. split; [reflexivity|].
  destruct (LoadGenesis_upgrade_heights sampleBackend b' sampleChain setup Hl)
    as (_ & _ & Hadj & _).
  split; [|exact Hadj].
  vm_compute in Hl. by injection Hl as _ <-.
Defined.
